(** * CloudSentinel (src/agents/cloud_sentinel.py): a shallow embedding

    The agent is sequential glue around three Google Cloud clients
    (service usage, IAM, Secret Manager).  The embedding keeps the shape of
    the Python: every method is a computation in a small state-and-exception
    monad over a [World] that stands for the remote project, and every
    [try ... except] of the source is a [try_except] here.  Logging has no
    effect on the modelled state and is left out. *)

From Stdlib Require Import String Ascii List Bool Arith Lia Permutation.
Import ListNotations.
Local Open Scope list_scope.
Local Open Scope string_scope.

(** ** Python strings and lists *)

(** [s.startswith(p)] *)
Definition startswith (s p : string) : bool := String.prefix p s.

(** [s.replace(old, new)] for a non-empty [old]: every non-overlapping
    occurrence, scanning from the left.  [skip] counts the characters of an
    occurrence that was just matched and still has to be dropped. *)
Fixpoint replace_from (old new : string) (skip : nat) (s : string) : string :=
  match s with
  | EmptyString => EmptyString
  | String c s' =>
      match skip with
      | S k => replace_from old new k s'
      | O =>
          if String.prefix old s
          then new ++ replace_from old new (String.length old - 1) s'
          else String c (replace_from old new 0 s')
      end
  end.

Definition replace (s old new : string) : string := replace_from old new 0 s.

(** [x in l] on a list of strings *)
Definition py_in (x : string) (l : list string) : bool :=
  existsb (String.eqb x) l.

(** truthiness of a list: [if l:] *)
Definition truthy {A} (l : list A) : bool :=
  match l with [] => false | _ :: _ => true end.

(** A Python [set] of strings.  [set_add] keeps the elements distinct.
    The order in which a set is iterated is not fixed by the language (it
    follows the string hashes, which change from one interpreter run to the
    next), so iteration goes through [set_iter], a parameter of the model. *)
Definition pyset := list string.

Definition set_add (x : string) (s : pyset) : pyset :=
  if py_in x s then s else (s ++ [x])%list.

(** What every iteration order satisfies: it goes through the elements of
    the set, each once. *)
Definition iter_ok (set_iter : pyset -> list string) : Prop :=
  forall s, Permutation s (set_iter s).

(** ** Exceptions, and the monad of the methods *)

Inductive exn : Type :=
  | NotFound (msg : string)
  | AlreadyExists (msg : string)
  | PermissionDenied (msg : string)
  | GoogleCloudError (msg : string).

(** [str(e)] *)
Definition str (e : exn) : string :=
  match e with
  | NotFound m | AlreadyExists m | PermissionDenied m | GoogleCloudError m => m
  end.

(** [except NotFound], [except api_exceptions.AlreadyExists], [except Exception] *)
Definition is_NotFound (e : exn) : bool :=
  match e with NotFound _ => true | _ => false end.
Definition is_AlreadyExists (e : exn) : bool :=
  match e with AlreadyExists _ => true | _ => false end.
Definition is_Exception (e : exn) : bool := true.

(** A computation on a state [S]: the state after it, and a value or the
    exception it raised.  State changes made before a raise stay. *)
Definition M (S A : Type) : Type := S -> S * (A + exn).

Definition ret {S A} (a : A) : M S A := fun s => (s, inl a).

Definition raise {S A} (e : exn) : M S A := fun s => (s, inr e).

Definition bind {S A B} (c : M S A) (k : A -> M S B) : M S B :=
  fun s =>
    match c s with
    | (s', inl a) => k a s'
    | (s', inr e) => (s', inr e)
    end.

Notation "x <- c ;; k" := (bind c (fun x => k))
  (at level 61, c at next level, right associativity).
Notation "c ;;; k" := (bind c (fun _ => k))
  (at level 61, right associativity).

(** [try: body  except cls as e: handler e] *)
Definition try_except {S A} (body : M S A) (cls : exn -> bool)
    (handler : exn -> M S A) : M S A :=
  fun s =>
    match body s with
    | (s', inl a) => (s', inl a)
    | (s', inr e) => if cls e then handler e s' else (s', inr e)
    end.

(** ** The remote project *)

(** [service_usage_v1.State] *)
Inductive State : Type := STATE_UNSPECIFIED | DISABLED | ENABLED.

Definition State_eqb (a b : State) : bool :=
  match a, b with
  | STATE_UNSPECIFIED, STATE_UNSPECIFIED | DISABLED, DISABLED | ENABLED, ENABLED => true
  | _, _ => false
  end.

(** [iam_v1.Binding] and the policy document *)
Record Binding : Type := mkBinding { role : string; members : list string }.
Record Policy : Type := mkPolicy { bindings : list Binding }.

(** The requests the three clients send, as the agent issues them. *)
Inductive Call : Type :=
  | get_service_call (name : string)
  | enable_service_call (name : string)
  | operation_result_call (name : string) (timeout : nat)
  | get_iam_policy_call (resource : string)
  | set_iam_policy_call (resource : string) (policy : Policy)
  | create_secret_call (parent secret_id : string)
  | add_secret_version_call (parent data : string).

(** The provider's side: which services are known and in which state, the
    IAM policy of each resource, the secrets with their versions (oldest
    first), the requests it refuses ([faults]), the clock, and the log of
    requests received so far (oldest first).  The three clients are not
    code of the repository: what a request does is set down below as the
    services document it, and any request may also fail as [faults] says. *)
Record World : Type := mkWorld {
  services : string -> option State;
  iam_policy : string -> Policy;
  secrets : list (string * list string);
  faults : Call -> option exn;
  utcnow : string;
  calls : list Call
}.

Definition with_calls (w : World) (l : list Call) : World :=
  mkWorld (services w) (iam_policy w) (secrets w) (faults w) (utcnow w) l.
Definition with_services (w : World) (f : string -> option State) : World :=
  mkWorld f (iam_policy w) (secrets w) (faults w) (utcnow w) (calls w).
Definition with_iam_policy (w : World) (f : string -> Policy) : World :=
  mkWorld (services w) f (secrets w) (faults w) (utcnow w) (calls w).
Definition with_secrets (w : World) (l : list (string * list string)) : World :=
  mkWorld (services w) (iam_policy w) l (faults w) (utcnow w) (calls w).

(** Every request is logged, then refused if the provider says so. *)
Definition request (c : Call) : M World unit :=
  fun w =>
    let w' := with_calls w (calls w ++ [c])%list in
    match faults w c with
    | Some e => (w', inr e)
    | None => (w', inl tt)
    end.

Definition get_world : M World World := fun w => (w, inl w).
Definition put_world (w : World) : M World unit := fun _ => (w, inl tt).

(** [service_usage_client.get_service(name=...)], reduced to the state *)
Definition get_service (name : string) : M World State :=
  request (get_service_call name) ;;;
  w <- get_world ;;
  match services w name with
  | Some st => ret st
  | None => raise (NotFound name)
  end.

(** [service_usage_client.enable_service(name=...)] returns the operation *)
Definition enable_service (name : string) : M World unit :=
  request (enable_service_call name).

(** [operation.result(timeout=...)]: when it returns, the service is on *)
Definition operation_result (name : string) (timeout : nat) : M World unit :=
  request (operation_result_call name timeout) ;;;
  w <- get_world ;;
  put_world (with_services w
    (fun n => if String.eqb n name then Some ENABLED else services w n)).

(** [iam_client.get_iam_policy(resource=...)] *)
Definition get_iam_policy (resource : string) : M World Policy :=
  request (get_iam_policy_call resource) ;;;
  w <- get_world ;;
  ret (iam_policy w resource).

(** [iam_client.set_iam_policy(resource=..., policy=...)]: whole-policy replace *)
Definition set_iam_policy (resource : string) (policy : Policy) : M World unit :=
  request (set_iam_policy_call resource policy) ;;;
  w <- get_world ;;
  put_world (with_iam_policy w
    (fun r => if String.eqb r resource then policy else iam_policy w r)).

Fixpoint lookup_secret (path : string) (l : list (string * list string))
    : option (list string) :=
  match l with
  | [] => None
  | (p, vs) :: l' => if String.eqb p path then Some vs else lookup_secret path l'
  end.

Fixpoint push_version (path data : string) (l : list (string * list string))
    : list (string * list string) :=
  match l with
  | [] => []
  | (p, vs) :: l' =>
      if String.eqb p path then (p, (vs ++ [data])%list) :: l'
      else (p, vs) :: push_version path data l'
  end.

(** [secret_client.create_secret(parent=..., secret_id=..., secret=...)] *)
Definition create_secret (parent secret_id : string) : M World unit :=
  request (create_secret_call parent secret_id) ;;;
  w <- get_world ;;
  let path := parent ++ "/secrets/" ++ secret_id in
  match lookup_secret path (secrets w) with
  | Some _ => raise (AlreadyExists path)
  | None => put_world (with_secrets w (secrets w ++ [(path, [])])%list)
  end.

(** [secret_client.add_secret_version(parent=..., payload={"data": ...})] *)
Definition add_secret_version (parent data : string) : M World unit :=
  request (add_secret_version_call parent data) ;;;
  w <- get_world ;;
  match lookup_secret parent (secrets w) with
  | Some _ => put_world (with_secrets w (push_version parent data (secrets w)))
  | None => raise (NotFound parent)
  end.

(** ** The agent *)

Record CloudSentinel : Type := mkCloudSentinel {
  project_id : string;
  location : string;
  required_apis : list string;
  critical_roles : list string
}.

(** [CloudSentinel.__init__], with the Google Cloud libraries present *)
Definition create_cloud_sentinel (project_id location : string) : CloudSentinel :=
  mkCloudSentinel project_id location
    [ "serviceusage.googleapis.com";
      "iam.googleapis.com";
      "secretmanager.googleapis.com";
      "cloudbuild.googleapis.com";
      "cloudresourcemanager.googleapis.com";
      "logging.googleapis.com";
      "monitoring.googleapis.com" ]
    [ "roles/secretmanager.secretAccessor";
      "roles/secretmanager.secretVersionManager";
      "roles/cloudbuild.builds.builder";
      "roles/logging.logWriter";
      "roles/monitoring.metricWriter" ].

(** [ensure_api]: the inner [try] yields whether the service was found
    enabled (the early [return True]); [NotFound] falls through to the
    enable request. *)
Definition ensure_api (self : CloudSentinel) (name : string) : M World bool :=
  try_except
    (let service_name := "projects/" ++ project_id self ++ "/services/" ++ name in
     already <- try_except
                  (state <- get_service service_name ;;
                   ret (State_eqb state ENABLED))
                  is_NotFound (fun _ => ret false) ;;
     if already then ret true
     else
       enable_service service_name ;;;
       operation_result service_name 300 ;;;
       ret true)
    is_Exception (fun _ => ret false).

(** The second loop of [ensure_role]: the first binding of the role gets
    the member appended ([break]); the flag is [role_exists]. *)
Fixpoint append_to_role (role' member : string) (bs : list Binding)
    : list Binding * bool :=
  match bs with
  | [] => ([], false)
  | binding :: rest =>
      if String.eqb (role binding) role'
      then (mkBinding (role binding) (members binding ++ [member])%list :: rest, true)
      else let (rest', role_exists) := append_to_role role' member rest in
           (binding :: rest', role_exists)
  end.

(** The local update of the fetched policy in [ensure_role]: the member
    goes into the first binding of the role, or into [new_binding], which is
    appended when no binding has the role. *)
Definition grant (role' member : string) (policy : Policy) : Policy :=
  let new_binding := mkBinding role' [member] in
  let (bs, role_exists) := append_to_role role' member (bindings policy) in
  mkPolicy (if role_exists then bs else bs ++ [new_binding])%list.

(** [ensure_role] *)
Definition ensure_role (self : CloudSentinel) (sa_email role' : string)
    : M World bool :=
  try_except
    (let resource := "projects/" ++ project_id self in
     policy <- get_iam_policy resource ;;
     let member := "serviceAccount:" ++ sa_email in
     if existsb (fun binding =>
                   String.eqb (role binding) role' && py_in member (members binding))
                (bindings policy)
     then ret true
     else
       let policy := grant role' member policy in
       set_iam_policy resource policy ;;;
       ret true)
    is_Exception (fun _ => ret false).

(** [_ensure_required_apis]: the loop, with the two lists built so far.
    The result is the pair ("enabled", "failed"). *)
Fixpoint ensure_apis_loop (self : CloudSentinel) (apis enabled failed : list string)
    : M World (list string * list string) :=
  match apis with
  | [] => ret (enabled, failed)
  | api :: rest =>
      ok <- ensure_api self api ;;
      if ok then ensure_apis_loop self rest (enabled ++ [api])%list failed
      else ensure_apis_loop self rest enabled (failed ++ [api])%list
  end.

Definition _ensure_required_apis (self : CloudSentinel)
    : M World (list string * list string) :=
  ensure_apis_loop self (required_apis self) [] [].

(** [_has_role] *)
Definition _has_role (sa_email role' : string) (policy : Policy) : bool :=
  let member := "serviceAccount:" ++ sa_email in
  existsb (fun binding =>
             String.eqb (role binding) role' && py_in member (members binding))
          (bindings policy).

(** The discovery loops of [_validate_iam_permissions] *)
Definition discover_members (ms : list string) (service_accounts : pyset) : pyset :=
  fold_left (fun acc member =>
               if startswith member "serviceAccount:"
               then set_add (replace member "serviceAccount:" "") acc
               else acc)
            ms service_accounts.

Definition discover (policy : Policy) : pyset :=
  fold_left (fun acc binding => discover_members (members binding) acc)
            (bindings policy) [].

(** [f"{sa_email}:{role}"] *)
Definition entry (sa_email role' : string) : string := sa_email ++ ":" ++ role'.

(** The checking loops: the pair is ([valid], [missing]). *)
Definition check_roles (policy : Policy) (roles : list string) (sa_email : string)
    (vm : list string * list string) : list string * list string :=
  fold_left (fun (acc : list string * list string) role' =>
               let (valid, missing) := acc in
               if _has_role sa_email role' policy
               then ((valid ++ [entry sa_email role'])%list, missing)
               else (valid, (missing ++ [entry sa_email role'])%list))
            roles vm.

Definition check_accounts (policy : Policy) (roles accounts : list string)
    (vm : list string * list string) : list string * list string :=
  fold_left (fun acc sa_email => check_roles policy roles sa_email acc) accounts vm.

(** [_validate_iam_permissions].  Only the policy fetch can raise, and it
    comes before the first append, so the handler sees the two lists as
    they were created.  The result is the pair ("valid", "missing"). *)
Definition _validate_iam_permissions (set_iter : pyset -> list string)
    (self : CloudSentinel) : M World (list string * list string) :=
  let valid : list string := [] in
  let missing : list string := [] in
  try_except
    (let resource := "projects/" ++ project_id self in
     policy <- get_iam_policy resource ;;
     let service_accounts := discover policy in
     ret (check_accounts policy (critical_roles self) (set_iter service_accounts)
            (valid, missing)))
    is_Exception
    (fun e => ret (valid, (missing ++ [("validation_error: " ++ str e)%string])%list)).

(** [_rotate_service_account_keys]: the body of the [try] is a placeholder.
    The result is the pair ("rotated", "failed"). *)
Definition _rotate_service_account_keys (self : CloudSentinel)
    : M World (list string * list string) :=
  let rotated : list string := [] in
  let failed : list string := [] in
  try_except
    (let resource := "projects/" ++ project_id self in
     ret (rotated, failed))
    is_Exception
    (fun e => ret (rotated, (failed ++ [("rotation_error: " ++ str e)%string])%list)).

(** [_store_key_in_secret_manager].  A Python [str] is held here as its
    UTF-8 bytes, so [key_data.encode()] is [key_data] itself. *)
Definition secret_id_of (sa_email : string) : string :=
  "sa-key-" ++ replace (replace sa_email "@" "-") "." "-".

Definition _store_key_in_secret_manager (self : CloudSentinel)
    (sa_email key_data : string) : M World bool :=
  try_except
    (let secret_id := secret_id_of sa_email in
     let parent := "projects/" ++ project_id self in
     try_except (create_secret parent secret_id)
       is_AlreadyExists (fun _ => ret tt) ;;;
     let secret_path := "projects/" ++ project_id self ++ "/secrets/" ++ secret_id in
     add_secret_version secret_path key_data ;;;
     ret true)
    is_Exception (fun _ => ret false).

(** ** The report of [ensure_environment] *)

Record Report : Type := mkReport {
  apis_enabled : list string;
  apis_failed : list string;
  permissions_valid : list string;
  permissions_missing : list string;
  keys_rotated : list string;
  keys_failed : list string;
  timestamp : string;
  overall_status : string;
  error : option string          (* the key "error", absent until set *)
}.

Definition set_apis (enabled failed : list string) (r : Report) : Report :=
  mkReport enabled failed (permissions_valid r) (permissions_missing r)
    (keys_rotated r) (keys_failed r) (timestamp r) (overall_status r) (error r).
Definition set_permissions (valid missing : list string) (r : Report) : Report :=
  mkReport (apis_enabled r) (apis_failed r) valid missing
    (keys_rotated r) (keys_failed r) (timestamp r) (overall_status r) (error r).
Definition set_keys (rotated failed : list string) (r : Report) : Report :=
  mkReport (apis_enabled r) (apis_failed r) (permissions_valid r)
    (permissions_missing r) rotated failed (timestamp r) (overall_status r) (error r).
Definition set_overall_status (s : string) (r : Report) : Report :=
  mkReport (apis_enabled r) (apis_failed r) (permissions_valid r)
    (permissions_missing r) (keys_rotated r) (keys_failed r) (timestamp r) s (error r).
Definition set_error (m : string) (r : Report) : Report :=
  mkReport (apis_enabled r) (apis_failed r) (permissions_valid r)
    (permissions_missing r) (keys_rotated r) (keys_failed r) (timestamp r)
    (overall_status r) (Some m).

(** The list-valued entries of the report under their keys, in the order
    of the dict literal. *)
Definition report_lists (r : Report) : list (string * list string) :=
  [ ("apis_enabled", apis_enabled r);
    ("apis_failed", apis_failed r);
    ("permissions_valid", permissions_valid r);
    ("permissions_missing", permissions_missing r);
    ("keys_rotated", keys_rotated r);
    ("keys_failed", keys_failed r) ].

(** ** [ensure_environment] *)

(** Inside [ensure_environment] the state is the remote project together
    with the local dict [results]; what was stored in [results] before an
    exception is still there in the handler. *)
Definition in_world {A} (c : M World A) : M (World * Report) A :=
  fun s =>
    let (w', a) := c (fst s) in ((w', snd s), a).

Definition results : M (World * Report) Report := fun s => (s, inl (snd s)).

Definition update_results (f : Report -> Report) : M (World * Report) unit :=
  fun s => ((fst s, f (snd s)), inl tt).

Section Reconciliation.

(** The three sub-passes, reached through [self]. *)
Variables apis_pass iam_pass keys_pass : M World (list string * list string).

Definition ensure_environment_try : M (World * Report) unit :=
  api_results <- in_world apis_pass ;;
  update_results (set_apis (fst api_results) (snd api_results)) ;;;
  iam_results <- in_world iam_pass ;;
  update_results (set_permissions (fst iam_results) (snd iam_results)) ;;;
  key_results <- in_world keys_pass ;;
  update_results (set_keys (fst key_results) (snd key_results)) ;;;
  r <- results ;;
  if truthy (apis_failed r) || truthy (permissions_missing r) || truthy (keys_failed r)
  then update_results (set_overall_status "issues_found")
  else update_results (set_overall_status "healthy").

Definition ensure_environment_with : M World Report :=
  fun w =>
    let results0 :=
      mkReport [] [] [] [] [] [] (utcnow w) "unknown" None in
    let (s, outcome) :=
      try_except ensure_environment_try is_Exception
        (fun e =>
           update_results (set_overall_status "error") ;;;
           update_results (set_error (str e)))
        (w, results0) in
    match outcome with
    | inl _ => (fst s, inl (snd s))
    | inr e => (fst s, inr e)
    end.

End Reconciliation.

(** [ensure_environment] *)
Definition ensure_environment (set_iter : pyset -> list string)
    (self : CloudSentinel) : M World Report :=
  ensure_environment_with
    (_ensure_required_apis self)
    (_validate_iam_permissions set_iter self)
    (_rotate_service_account_keys self).

(** ** Views used in the statements *)

(** The entries one principal contributes to "valid" and to "missing", in
    the order of the roles. *)
Definition valid_of (policy : Policy) (roles : list string) (p : string) : list string :=
  map (entry p) (filter (fun r => _has_role p r policy) roles).
Definition missing_of (policy : Policy) (roles : list string) (p : string) : list string :=
  map (entry p) (filter (fun r => negb (_has_role p r policy)) roles).

(** A string rewritten character by character. *)
Fixpoint map_chars (f : ascii -> ascii) (s : string) : string :=
  match s with
  | EmptyString => EmptyString
  | String c s' => String (f c) (map_chars f s')
  end.

(** The separators of an email address become dashes. *)
Definition dash (c : ascii) : ascii :=
  if Ascii.eqb c "@" then "-"%char
  else if Ascii.eqb c "." then "-"%char
  else c.

(** The versions a secret holds; none when the secret does not exist. *)
Definition versions (path : string) (w : World) : list string :=
  match lookup_secret path (secrets w) with
  | Some vs => vs
  | None => []
  end.

(** [s.endswith(suffix)] *)
Definition endswith (s suffix : string) : bool :=
  Nat.leb (String.length suffix) (String.length s) &&
  String.eqb
    (substring (String.length s - String.length suffix) (String.length suffix) s)
    suffix.

(** The failure and missing lists of the report are the entries whose key
    says so: "..._failed" and "..._missing". *)
Definition is_failure_key (key : string) : bool :=
  endswith key "_failed" || endswith key "_missing".

Definition failure_lists (r : Report) : list (list string) :=
  map snd (filter (fun kv => is_failure_key (fst kv)) (report_lists r)).

(** The exception that escapes the sub-passes, run one after the other. *)
Definition escaping (apis_pass iam_pass keys_pass : M World (list string * list string))
    (w : World) : option exn :=
  match snd ((apis_pass ;;; iam_pass ;;; keys_pass) w) with
  | inl _ => None
  | inr e => Some e
  end.

(** The second half of [ensure_api]: the enable request and the wait for
    the operation, under the outer [try]. *)
Definition try_enable (service_name : string) : M World bool :=
  try_except
    (enable_service service_name ;;;
     operation_result service_name 300 ;;;
     ret true)
    is_Exception (fun _ => ret false).

(** What [get_service] can say of a service that makes [ensure_api] go on
    to the enable request: a state other than [ENABLED], or [NotFound]. *)
Definition not_enabled (o : State + exn) : bool :=
  match o with
  | inl ENABLED => false
  | inl _ => true
  | inr e => is_NotFound e
  end.

(** The requests of the service-usage client. *)
Definition is_service_usage_call (c : Call) : bool :=
  match c with
  | get_service_call _ | enable_service_call _ | operation_result_call _ _ => true
  | _ => false
  end.

(** The resource a request names. *)
Definition call_resource (c : Call) : string :=
  match c with
  | get_service_call name | enable_service_call name
  | operation_result_call name _ => name
  | get_iam_policy_call resource | set_iam_policy_call resource _ => resource
  | create_secret_call parent _ => parent
  | add_secret_version_call parent _ => parent
  end.




(** [old in s] on strings *)
Fixpoint contains (s old : string) : bool :=
  String.prefix old s ||
  match s with
  | EmptyString => false
  | String _ s' => contains s' old
  end.

(** The resource name of an API in the agent's project. *)
Definition service_name (self : CloudSentinel) (name : string) : string :=
  "projects/" ++ project_id self ++ "/services/" ++ name.

(** A provider that refuses nothing. *)
Definition fault_free (w : World) : Prop := forall c, faults w c = None.

(** ** Sample projects

    Concrete worlds on which the methods are run further down. *)

(** No fault, every service enabled, an empty policy. *)
Definition all_enabled : World :=
  mkWorld (fun _ => Some ENABLED) (fun _ => mkPolicy []) [] (fun _ => None)
    "2025-01-01T00:00:00" [].

(** The policy of the scenarios: svcA holds R1, svcB appears under R3. *)
Definition scenario_policy : Policy :=
  mkPolicy [ mkBinding "R1" ["serviceAccount:svcA"];
             mkBinding "R3" ["serviceAccount:svcB"] ].

Definition scenario_world : World :=
  mkWorld (fun _ => Some ENABLED) (fun _ => scenario_policy) [] (fun _ => None)
    "2025-01-01T00:00:00" [].

(** An agent whose critical roles are R1 and R2. *)
Definition scenario_sentinel : CloudSentinel :=
  mkCloudSentinel "p" "global" [] ["R1"; "R2"].

(** The policy fetch is refused. *)
Definition fetch_denied : World :=
  mkWorld (fun _ => Some ENABLED) (fun _ => scenario_policy) []
    (fun c => match c with
              | get_iam_policy_call _ => Some (PermissionDenied "403 denied")
              | _ => None
              end)
    "2025-01-01T00:00:00" [].

(** Every service enabled, and one service account with every critical
    role. *)
Definition healthy_world : World :=
  mkWorld (fun _ => Some ENABLED)
    (fun _ => mkPolicy
       (map (fun r => mkBinding r ["serviceAccount:bot@p.iam.gserviceaccount.com"])
            (critical_roles (create_cloud_sentinel "p" "global"))))
    [] (fun _ => None) "2025-01-01T00:00:00" [].

(** A sub-pass that raises. *)
Definition failing_pass : M World (list string * list string) :=
  raise (GoogleCloudError "503 backend unavailable").

(** A key sub-pass that reports one rotated key and no failure. *)
Definition rotating_pass : M World (list string * list string) :=
  ret (["bot@p.iam.gserviceaccount.com"], []).

(** One service is unknown to the provider, the others are enabled. *)
Definition one_unknown : World :=
  mkWorld (fun n => if String.eqb n "projects/p/services/iam.googleapis.com"
                    then None else Some ENABLED)
    (fun _ => scenario_policy) [] (fun _ => None) "2025-01-01T00:00:00" [].

(** Every [get_service] is refused. *)
Definition lookup_denied : World :=
  mkWorld (fun _ => Some DISABLED) (fun _ => scenario_policy) []
    (fun c => match c with
              | get_service_call _ => Some (PermissionDenied "403 denied")
              | _ => None
              end)
    "2025-01-01T00:00:00" [].

(** Every enable request is refused. *)
Definition enable_denied : World :=
  mkWorld (fun _ => Some DISABLED) (fun _ => scenario_policy) []
    (fun c => match c with
              | enable_service_call _ => Some (PermissionDenied "403 denied")
              | _ => None
              end)
    "2025-01-01T00:00:00" [].

(** Every policy write is refused. *)
Definition write_denied : World :=
  mkWorld (fun _ => Some ENABLED) (fun _ => scenario_policy) []
    (fun c => match c with
              | set_iam_policy_call _ _ => Some (PermissionDenied "403 denied")
              | _ => None
              end)
    "2025-01-01T00:00:00" [].

(** Two iteration orders of a set: as inserted, and reversed. *)
Definition insertion_order (s : pyset) : list string := s.
Definition reverse_order (s : pyset) : list string := rev s.

(** * Properties *)

(** ** The remote calls *)

Lemma get_service_returns (name : string) (st : State) (w : World) :
  snd (get_service name w) = inl st <->
  faults w (get_service_call name) = None /\ services w name = Some st.
Proof.
  unfold get_service, bind, request, get_world, ret, raise; simpl.
  destruct (faults w (get_service_call name)); simpl.
  - split; [discriminate | intros [H _]; discriminate].
  - destruct (services w name); simpl; split; intros H;
      try discriminate; try (destruct H; discriminate).
    + injection H as ->; auto.
    + destruct H as [_ H]; injection H as ->; reflexivity.
Qed.

Lemma get_iam_policy_run (resource : string) (w : World) :
  get_iam_policy resource w =
  let w' := with_calls w (calls w ++ [get_iam_policy_call resource]) in
  match faults w (get_iam_policy_call resource) with
  | Some e => (w', inr e)
  | None => (w', inl (iam_policy w resource))
  end.
Proof.
  unfold get_iam_policy, bind, request, get_world, ret; simpl.
  destruct (faults w (get_iam_policy_call resource)); reflexivity.
Qed.

Lemma set_iam_policy_run (resource : string) (policy : Policy) (w : World) :
  set_iam_policy resource policy w =
  let w' := with_calls w (calls w ++ [set_iam_policy_call resource policy]) in
  match faults w (set_iam_policy_call resource policy) with
  | Some e => (w', inr e)
  | None =>
      (with_iam_policy w'
         (fun r => if String.eqb r resource then policy else iam_policy w r),
       inl tt)
  end.
Proof.
  unfold set_iam_policy, bind, request, get_world, put_world; simpl.
  destruct (faults w (set_iam_policy_call resource policy)); reflexivity.
Qed.

(** ** [ensure_api] *)

(** C6.  When [get_service] reports the service as [ENABLED], [ensure_api]
    returns [True]; the only request of the run is that [get_service], so no
    enable request is sent, and the provider's state is as it was. *)
Theorem ensure_api_already_enabled (self : CloudSentinel) (name : string) (w : World) :
  let service_name := "projects/" ++ project_id self ++ "/services/" ++ name in
  let w' := fst (ensure_api self name w) in
  snd (get_service service_name w) = inl ENABLED ->
  snd (ensure_api self name w) = inl true /\
  calls w' = (calls w ++ [get_service_call service_name])%list /\
  services w' = services w /\
  iam_policy w' = iam_policy w /\
  secrets w' = secrets w.
Proof.
  intros service_name w' H.
  apply get_service_returns in H as [Hf Hs].
  subst w' service_name.
  cbv [ensure_api try_except bind get_service request get_world ret].
  rewrite Hf. cbn [with_calls services]. rewrite Hs. cbn [State_eqb].
  repeat split.
Qed.

Lemma ensure_api_already_enabled_witness :
  snd (ensure_api (create_cloud_sentinel "p" "global") "iam.googleapis.com" all_enabled)
  = inl true /\
  calls (fst (ensure_api (create_cloud_sentinel "p" "global") "iam.googleapis.com"
                all_enabled))
  = [get_service_call "projects/p/services/iam.googleapis.com"].
Proof.
  destruct (ensure_api_already_enabled (create_cloud_sentinel "p" "global")
              "iam.googleapis.com" all_enabled) as (Hr & Hc & _).
  - reflexivity.
  - split; [exact Hr | exact Hc].
Defined.

(** ** Role bindings *)

Lemma py_in_In (x : string) (l : list string) : py_in x l = true <-> In x l.
Proof.
  unfold py_in. rewrite existsb_exists. split.
  - intros (y & Hy & E). apply String.eqb_eq in E. now subst.
  - intros H. exists x. split; [exact H | apply String.eqb_refl].
Qed.

Lemma _has_role_true (sa_email r : string) (policy : Policy) :
  _has_role sa_email r policy = true <->
  exists binding, In binding (bindings policy) /\ role binding = r /\
                  In ("serviceAccount:" ++ sa_email) (members binding).
Proof.
  unfold _has_role. rewrite existsb_exists. split.
  - intros (b & Hb & E). apply andb_true_iff in E as [E1 E2].
    apply String.eqb_eq in E1. apply py_in_In in E2. eauto.
  - intros (b & Hb & E1 & E2). exists b. split; [exact Hb |].
    apply andb_true_iff. split; [now apply String.eqb_eq | now apply py_in_In].
Qed.

Lemma append_to_role_found (r member : string) (bs : list Binding) :
  (exists b, In b bs /\ role b = r) ->
  exists pre b post,
    bs = (pre ++ b :: post)%list /\ role b = r /\
    (forall b0, In b0 pre -> role b0 <> r) /\
    append_to_role r member bs =
      ((pre ++ mkBinding r (members b ++ [member]) :: post)%list, true).
Proof.
  induction bs as [| b0 bs IH]; intros (b & Hin & Hr).
  - destruct Hin.
  - simpl. destruct (String.eqb_spec (role b0) r) as [E | NE].
    + exists [], b0, bs. rewrite E. repeat split; auto.
    + destruct IH as (pre & b1 & post & Hbs & Hr1 & Hpre & Happ).
      { destruct Hin as [-> | Hin]; [contradiction | eauto]. }
      exists (b0 :: pre), b1, post. rewrite Happ, Hbs. repeat split; auto.
      intros b2 [<- | H2]; auto.
Qed.

Lemma append_to_role_absent (r member : string) (bs : list Binding) :
  (forall b, In b bs -> role b <> r) ->
  append_to_role r member bs = (bs, false).
Proof.
  induction bs as [| b0 bs IH]; intros H; simpl; [reflexivity |].
  destruct (String.eqb_spec (role b0) r) as [E | NE].
  - exfalso. apply (H b0); simpl; auto.
  - rewrite IH; [reflexivity |]. intros b Hb. apply H. now right.
Qed.

(** How [ensure_role] runs, request by request. *)
Lemma ensure_role_run (self : CloudSentinel) (sa_email r : string) (w : World) :
  let resource := "projects/" ++ project_id self in
  let member := "serviceAccount:" ++ sa_email in
  let policy := iam_policy w resource in
  let w1 := with_calls w (calls w ++ [get_iam_policy_call resource]) in
  ensure_role self sa_email r w =
  match faults w (get_iam_policy_call resource) with
  | Some _ => (w1, inl false)
  | None =>
      if _has_role sa_email r policy then (w1, inl true)
      else
        let policy' := grant r member policy in
        let w2 := with_calls w1 (calls w1 ++ [set_iam_policy_call resource policy']) in
        match faults w (set_iam_policy_call resource policy') with
        | Some _ => (w2, inl false)
        | None =>
            (with_iam_policy w2
               (fun x => if String.eqb x resource then policy' else iam_policy w x),
             inl true)
        end
  end.
Proof.
  intros resource member policy w1.
  unfold ensure_role, try_except, bind. fold resource. rewrite get_iam_policy_run.
  cbv zeta. fold w1.
  destruct (faults w (get_iam_policy_call resource)); [reflexivity |].
  fold member policy.
  change (existsb _ (bindings policy)) with (_has_role sa_email r policy).
  destruct (_has_role sa_email r policy); [reflexivity |].
  rewrite set_iam_policy_run. cbv zeta.
  change (faults w1) with (faults w).
  destruct (faults w (set_iam_policy_call resource (grant r member policy)));
    reflexivity.
Qed.

Lemma get_iam_policy_returns (resource : string) (policy : Policy) (w : World) :
  snd (get_iam_policy resource w) = inl policy ->
  faults w (get_iam_policy_call resource) = None /\ iam_policy w resource = policy.
Proof.
  rewrite get_iam_policy_run. cbv zeta.
  destruct (faults w (get_iam_policy_call resource)); simpl; intros H.
  - discriminate.
  - injection H as ->. auto.
Qed.

(** ** [ensure_role] *)

(** C5.  When the fetched policy has a binding of the role that already
    lists the member, [ensure_role] returns [True]; the only request of the
    run is the policy fetch, so nothing is written, and the policy and the
    rest of the provider's state are as they were. *)
Theorem ensure_role_already_present
    (self : CloudSentinel) (sa_email r : string) (w : World) (policy : Policy) :
  let resource := "projects/" ++ project_id self in
  let w' := fst (ensure_role self sa_email r w) in
  snd (get_iam_policy resource w) = inl policy ->
  (exists binding, In binding (bindings policy) /\ role binding = r /\
                   In ("serviceAccount:" ++ sa_email) (members binding)) ->
  snd (ensure_role self sa_email r w) = inl true /\
  calls w' = (calls w ++ [get_iam_policy_call resource])%list /\
  iam_policy w' = iam_policy w /\
  services w' = services w /\
  secrets w' = secrets w.
Proof.
  intros resource w' Hget Hin.
  apply get_iam_policy_returns in Hget as [Hf Hp].
  apply _has_role_true in Hin.
  subst w' policy. rewrite ensure_role_run. cbv zeta.
  fold resource. rewrite Hf, Hin. repeat split.
Qed.

(** C3.  When the fetched policy does not yet give the role to the member,
    [ensure_role] sends, after the fetch, exactly one [set_iam_policy] with
    the whole updated policy.  If some binding has the role, the update is
    the fetched policy with the member appended to the first such binding,
    and the bindings are otherwise the same, in number and in roles; if no
    binding has the role, the update is the fetched policy followed by one
    binding of that role whose only member is the given one.  When the
    provider accepts the write, the result is [True] and the stored policy
    is the update. *)
Theorem ensure_role_grants
    (self : CloudSentinel) (sa_email r : string) (w : World) (policy : Policy) :
  let resource := "projects/" ++ project_id self in
  let member := "serviceAccount:" ++ sa_email in
  let w' := fst (ensure_role self sa_email r w) in
  snd (get_iam_policy resource w) = inl policy ->
  _has_role sa_email r policy = false ->
  exists policy',
    calls w' = (calls w ++ [get_iam_policy_call resource;
                            set_iam_policy_call resource policy'])%list /\
    ((exists b, In b (bindings policy) /\ role b = r) ->
     exists pre b post,
       bindings policy = (pre ++ b :: post)%list /\
       role b = r /\ (forall b0, In b0 pre -> role b0 <> r) /\
       bindings policy' =
         (pre ++ mkBinding r (members b ++ [member]) :: post)%list /\
       map role (bindings policy') = map role (bindings policy)) /\
    ((forall b, In b (bindings policy) -> role b <> r) ->
     bindings policy' = (bindings policy ++ [mkBinding r [member]])%list) /\
    (faults w (set_iam_policy_call resource policy') = None ->
     snd (ensure_role self sa_email r w) = inl true /\
     iam_policy w' resource = policy').
Proof.
  intros resource member w' Hget Hno.
  apply get_iam_policy_returns in Hget as [Hf Hp].
  exists (grant r member policy).
  subst w' policy. rewrite ensure_role_run. cbv zeta.
  fold resource member. rewrite Hf, Hno.
  set (policy := iam_policy w resource) in *.
  set (policy' := grant r member policy).
  split; [| split; [| split]].
  - destruct (faults w (set_iam_policy_call resource policy')); simpl;
      rewrite <- app_assoc; reflexivity.
  - intros Hex.
    destruct (append_to_role_found r member (bindings policy) Hex)
      as (pre & b & post & Hbs & Hr & Hpre & Happ).
    exists pre, b, post. repeat split; auto.
    + subst policy'. unfold grant. rewrite Happ. reflexivity.
    + subst policy'. unfold grant. rewrite Happ. simpl bindings.
      rewrite Hbs, !map_app. simpl. now rewrite Hr.
  - intros Hnone. subst policy'. unfold grant.
    rewrite (append_to_role_absent r member (bindings policy) Hnone).
    reflexivity.
  - intros Hs. rewrite Hs. simpl. rewrite String.eqb_refl. auto.
Qed.

Lemma ensure_role_already_present_witness :
  snd (ensure_role scenario_sentinel "svcA" "R1" scenario_world) = inl true /\
  calls (fst (ensure_role scenario_sentinel "svcA" "R1" scenario_world))
  = [get_iam_policy_call "projects/p"].
Proof.
  destruct (ensure_role_already_present scenario_sentinel "svcA" "R1"
              scenario_world scenario_policy) as (Hr & Hc & _).
  - reflexivity.
  - exists (mkBinding "R1" ["serviceAccount:svcA"]). simpl. auto.
  - split; [exact Hr | exact Hc].
Defined.

Lemma ensure_role_grants_witness :
  snd (ensure_role scenario_sentinel "svcB" "R1" scenario_world) = inl true /\
  iam_policy (fst (ensure_role scenario_sentinel "svcB" "R1" scenario_world))
    "projects/p"
  = mkPolicy [ mkBinding "R1" ["serviceAccount:svcA"; "serviceAccount:svcB"];
               mkBinding "R3" ["serviceAccount:svcB"] ].
Proof.
  destruct (ensure_role_grants scenario_sentinel "svcB" "R1"
              scenario_world scenario_policy) as (policy' & Hc & _ & _ & Hok).
  - reflexivity.
  - reflexivity.
  - vm_compute in Hc. injection Hc as Hc. subst policy'.
    destruct Hok as [Ht Hp]; [reflexivity |].
    split; [exact Ht | exact Hp].
Defined.

(** ** [_validate_iam_permissions] *)

(** C7.  When the policy fetch raises, [_validate_iam_permissions] returns
    an empty "valid" list and a "missing" list of one entry, the exception's
    message behind the prefix "validation_error: "; no principal is checked. *)
Theorem validate_iam_permissions_fetch_fails
    (set_iter : pyset -> list string) (self : CloudSentinel) (w : World) (e : exn) :
  snd (get_iam_policy ("projects/" ++ project_id self) w) = inr e ->
  snd (_validate_iam_permissions set_iter self w)
  = inl ([], ["validation_error: " ++ str e]).
Proof.
  intros H. unfold _validate_iam_permissions, try_except, bind.
  destruct (get_iam_policy ("projects/" ++ project_id self) w) as [w1 [p | e1]];
    simpl in H; [discriminate |].
  injection H as ->. reflexivity.
Qed.

Lemma validate_iam_permissions_fetch_fails_witness :
  snd (_validate_iam_permissions insertion_order scenario_sentinel fetch_denied)
  = inl ([], ["validation_error: 403 denied"]).
Proof.
  apply (validate_iam_permissions_fetch_fails insertion_order scenario_sentinel
           fetch_denied (PermissionDenied "403 denied")).
  reflexivity.
Defined.

(** *** Discovery of the principals *)

Lemma set_add_In (x y : string) (s : pyset) :
  In y (set_add x s) <-> y = x \/ In y s.
Proof.
  unfold set_add. destruct (py_in x s) eqn:E.
  - apply py_in_In in E. split; [auto | intros [-> | H]; auto].
  - rewrite in_app_iff. simpl. split.
    + intros [H | [H | []]]; auto.
    + intros [-> | H]; auto.
Qed.

Lemma discover_members_In (ms : list string) (acc : pyset) (p : string) :
  In p (discover_members ms acc) <->
  In p acc \/
  exists m, In m ms /\ startswith m "serviceAccount:" = true /\
            p = replace m "serviceAccount:" "".
Proof.
  unfold discover_members. revert acc.
  induction ms as [| m0 ms IH]; intros acc; simpl.
  - split; [auto | intros [H | (m & [] & _)]; exact H].
  - rewrite IH. destruct (startswith m0 "serviceAccount:") eqn:E.
    + rewrite set_add_In. split.
      * intros [[-> | H] | (m & Hm & Hs & Hp)]; eauto 6.
      * intros [H | (m & [<- | Hm] & Hs & Hp)]; eauto 6.
    + split.
      * intros [H | (m & Hm & Hs & Hp)]; eauto 6.
      * intros [H | (m & [<- | Hm] & Hs & Hp)]; eauto 6. congruence.
Qed.

Lemma discover_In (policy : Policy) (p : string) :
  In p (discover policy) <->
  exists b m, In b (bindings policy) /\ In m (members b) /\
              startswith m "serviceAccount:" = true /\
              p = replace m "serviceAccount:" "".
Proof.
  unfold discover.
  assert (G : forall bs acc,
    In p (fold_left (fun acc b => discover_members (members b) acc) bs acc) <->
    In p acc \/
    exists b m, In b bs /\ In m (members b) /\
                startswith m "serviceAccount:" = true /\
                p = replace m "serviceAccount:" "").
  { induction bs as [| b0 bs IH]; intros acc; simpl.
    - split; [auto | intros [H | (b & m & [] & _)]; exact H].
    - rewrite IH, discover_members_In. split.
      + intros [[H | (m & Hm & Hs & Hp)] | (b & m & Hb & Hm & Hs & Hp)]; eauto 8.
      + intros [H | (b & m & [<- | Hb] & Hm & Hs & Hp)]; eauto 8. }
  rewrite G. simpl. split; [intros [[] | H]; exact H | auto].
Qed.

(** *** The two lists *)

Lemma check_roles_eq (policy : Policy) (roles : list string) (p : string)
    (v m : list string) :
  check_roles policy roles p (v, m) =
  ((v ++ valid_of policy roles p)%list, (m ++ missing_of policy roles p)%list).
Proof.
  unfold check_roles, valid_of, missing_of. revert v m.
  induction roles as [| r roles IH]; intros v m; simpl.
  - now rewrite !app_nil_r.
  - destruct (_has_role p r policy); simpl; rewrite IH, <- app_assoc; reflexivity.
Qed.

Lemma check_accounts_eq (policy : Policy) (roles accounts : list string)
    (v m : list string) :
  check_accounts policy roles accounts (v, m) =
  ((v ++ flat_map (valid_of policy roles) accounts)%list,
   (m ++ flat_map (missing_of policy roles) accounts)%list).
Proof.
  unfold check_accounts. revert v m.
  induction accounts as [| p accounts IH]; intros v m; simpl.
  - now rewrite !app_nil_r.
  - rewrite check_roles_eq, IH, <- !app_assoc. reflexivity.
Qed.

Lemma validate_iam_permissions_run (set_iter : pyset -> list string)
    (self : CloudSentinel) (w : World) :
  let resource := "projects/" ++ project_id self in
  let w1 := with_calls w (calls w ++ [get_iam_policy_call resource]) in
  _validate_iam_permissions set_iter self w =
  match faults w (get_iam_policy_call resource) with
  | Some e => (w1, inl ([], ["validation_error: " ++ str e]))
  | None =>
      let policy := iam_policy w resource in
      let accounts := set_iter (discover policy) in
      (w1, inl (flat_map (valid_of policy (critical_roles self)) accounts,
                flat_map (missing_of policy (critical_roles self)) accounts))
  end.
Proof.
  intros resource w1. unfold _validate_iam_permissions, try_except, bind.
  fold resource. rewrite get_iam_policy_run. cbv zeta. fold w1.
  destruct (faults w (get_iam_policy_call resource)); [reflexivity |].
  unfold ret. rewrite check_accounts_eq. reflexivity.
Qed.

Lemma In_valid_of (policy : Policy) (roles accounts : list string) (e : string) :
  In e (flat_map (valid_of policy roles) accounts) <->
  exists p r, In p accounts /\ In r roles /\ _has_role p r policy = true /\
              e = entry p r.
Proof.
  rewrite in_flat_map. unfold valid_of. split.
  - intros (p & Hp & He). apply in_map_iff in He as (r & <- & Hr).
    apply filter_In in Hr as [Hr Hh]. eauto 8.
  - intros (p & r & Hp & Hr & Hh & ->). exists p. split; [exact Hp |].
    apply in_map. apply filter_In. auto.
Qed.

Lemma In_missing_of (policy : Policy) (roles accounts : list string) (e : string) :
  In e (flat_map (missing_of policy roles) accounts) <->
  exists p r, In p accounts /\ In r roles /\ _has_role p r policy = false /\
              e = entry p r.
Proof.
  rewrite in_flat_map. unfold missing_of. split.
  - intros (p & Hp & He). apply in_map_iff in He as (r & <- & Hr).
    apply filter_In in Hr as [Hr Hh]. apply negb_true_iff in Hh. eauto 8.
  - intros (p & r & Hp & Hr & Hh & ->). exists p. split; [exact Hp |].
    apply in_map. apply filter_In. split; [exact Hr | now apply negb_true_iff].
Qed.

Lemma set_add_NoDup (x : string) (s : pyset) : NoDup s -> NoDup (set_add x s).
Proof.
  intros H. unfold set_add. destruct (py_in x s) eqn:E; [exact H |].
  apply NoDup_app; [exact H | repeat constructor; intros [] |].
  intros y Hy [<- | []]. apply py_in_In in Hy. congruence.
Qed.

Lemma discover_NoDup (policy : Policy) : NoDup (discover policy).
Proof.
  unfold discover.
  assert (G : forall ms acc, NoDup acc -> NoDup (discover_members ms acc)).
  { unfold discover_members.
    induction ms as [| m ms IH]; intros acc H; simpl; [exact H |].
    apply IH. destruct (startswith m "serviceAccount:"); [| exact H].
    now apply set_add_NoDup. }
  assert (F : forall bs acc, NoDup acc ->
    NoDup (fold_left (fun acc b => discover_members (members b) acc) bs acc)).
  { induction bs as [| b bs IH]; intros acc H; simpl; [exact H |].
    apply IH, G, H. }
  apply F. constructor.
Qed.

Lemma iter_ok_In (set_iter : pyset -> list string) (s : pyset) (x : string) :
  iter_ok set_iter -> (In x (set_iter s) <-> In x s).
Proof.
  intros H. split; intros Hx.
  - eapply Permutation_in; [apply Permutation_sym, H | exact Hx].
  - eapply Permutation_in; [apply H | exact Hx].
Qed.

(** A duplicate-free list over two distinct values is one of two lists. *)
Lemma two_orders (l : list string) (a b : string) :
  a <> b -> NoDup l -> (forall x, In x l <-> x = a \/ x = b) ->
  l = [a; b] \/ l = [b; a].
Proof.
  intros Hab Hnd Hl.
  assert (Ha : In a l) by (apply Hl; auto).
  assert (Hb : In b l) by (apply Hl; auto).
  destruct l as [| x [| y [| z l]]].
  - destruct Ha.
  - destruct Ha as [<- | []], Hb as [<- | []]. congruence.
  - inversion Hnd as [| ? ? Hx _]; subst.
    assert (x <> y) by (intros ->; apply Hx; simpl; auto).
    destruct Ha as [<- | [<- | []]], Hb as [<- | [<- | []]]; try congruence; auto.
  - exfalso. inversion Hnd as [| ? ? Hx Hnd']; subst.
    inversion Hnd' as [| ? ? Hy _]; subst.
    assert (Ex : x = a \/ x = b) by (apply Hl; simpl; auto).
    assert (Ey : y = a \/ y = b) by (apply Hl; simpl; auto).
    assert (Ez : z = a \/ z = b) by (apply Hl; simpl; auto).
    assert (x <> y) by (intros ->; apply Hx; simpl; auto).
    assert (x <> z) by (intros ->; apply Hx; simpl; auto).
    assert (y <> z) by (intros ->; apply Hy; simpl; auto).
    destruct Ex, Ey, Ez; congruence.
Qed.

(** C4 (as amended).  When the policy fetch succeeds,
    [_validate_iam_permissions] discovers its principals from the members of
    the bindings, checks every critical role for each of them, and files the
    entry "principal:role" under "valid" when [_has_role] holds and under
    "missing" otherwise.  The principals are taken in the iteration order of
    a set, the roles in the order of [critical_roles].  With principals svcA
    and svcB and critical roles R1, R2, where svcA holds only R1 and svcB
    neither, "valid" is [svcA:R1] and "missing" is one of
    [svcA:R2; svcB:R1; svcB:R2] and [svcB:R1; svcB:R2; svcA:R2]. *)
Theorem validate_iam_permissions_entries
    (set_iter : pyset -> list string) (self : CloudSentinel) (w : World)
    (policy : Policy) :
  iter_ok set_iter ->
  snd (get_iam_policy ("projects/" ++ project_id self) w) = inl policy ->
  exists valid missing,
    snd (_validate_iam_permissions set_iter self w) = inl (valid, missing) /\
    valid = flat_map (valid_of policy (critical_roles self))
              (set_iter (discover policy)) /\
    missing = flat_map (missing_of policy (critical_roles self))
                (set_iter (discover policy)) /\
    (forall p, In p (set_iter (discover policy)) <->
       exists b m, In b (bindings policy) /\ In m (members b) /\
                   startswith m "serviceAccount:" = true /\
                   p = replace m "serviceAccount:" "") /\
    (forall e, In e valid <->
       exists p r, In p (discover policy) /\ In r (critical_roles self) /\
                   _has_role p r policy = true /\ e = entry p r) /\
    (forall e, In e missing <->
       exists p r, In p (discover policy) /\ In r (critical_roles self) /\
                   _has_role p r policy = false /\ e = entry p r) /\
    (forall svcA svcB R1 R2,
       (forall p, In p (discover policy) <-> p = svcA \/ p = svcB) ->
       critical_roles self = [R1; R2] ->
       _has_role svcA R1 policy = true -> _has_role svcA R2 policy = false ->
       _has_role svcB R1 policy = false -> _has_role svcB R2 policy = false ->
       valid = [entry svcA R1] /\
       (missing = [entry svcA R2; entry svcB R1; entry svcB R2] \/
        missing = [entry svcB R1; entry svcB R2; entry svcA R2])).
Proof.
  intros Hiter Hget.
  apply get_iam_policy_returns in Hget as [Hf Hp].
  rewrite validate_iam_permissions_run. cbv zeta. rewrite Hf, Hp.
  do 2 eexists. split; [reflexivity |]. split; [reflexivity |].
  split; [reflexivity |].
  split; [| split; [| split]].
  - intros p. rewrite (iter_ok_In set_iter _ p Hiter). apply discover_In.
  - intros e. rewrite In_valid_of. split.
    + intros (p & r & H1 & H2). exists p, r. split; [| exact H2].
      now apply (iter_ok_In set_iter _ p Hiter).
    + intros (p & r & H1 & H2). exists p, r. split; [| exact H2].
      now apply (iter_ok_In set_iter _ p Hiter).
  - intros e. rewrite In_missing_of. split.
    + intros (p & r & H1 & H2). exists p, r. split; [| exact H2].
      now apply (iter_ok_In set_iter _ p Hiter).
    + intros (p & r & H1 & H2). exists p, r. split; [| exact H2].
      now apply (iter_ok_In set_iter _ p Hiter).
  - intros svcA svcB R1 R2 Hd Hroles HA1 HA2 HB1 HB2. rewrite Hroles.
    assert (Hne : svcA <> svcB) by congruence.
    assert (Hnd : NoDup (set_iter (discover policy))).
    { eapply Permutation_NoDup; [apply Hiter | apply discover_NoDup]. }
    assert (Hin : forall x, In x (set_iter (discover policy)) <-> x = svcA \/ x = svcB).
    { intros x. rewrite (iter_ok_In set_iter _ x Hiter). apply Hd. }
    destruct (two_orders _ svcA svcB Hne Hnd Hin) as [-> | ->];
      unfold valid_of, missing_of; simpl; rewrite HA1, HA2, HB1, HB2; simpl; auto.
Qed.

Lemma validate_iam_permissions_entries_witness :
  exists valid missing,
    snd (_validate_iam_permissions insertion_order scenario_sentinel scenario_world)
    = inl (valid, missing) /\
    valid = ["svcA:R1"] /\
    (missing = ["svcA:R2"; "svcB:R1"; "svcB:R2"] \/
     missing = ["svcB:R1"; "svcB:R2"; "svcA:R2"]).
Proof.
  destruct (validate_iam_permissions_entries insertion_order scenario_sentinel
              scenario_world scenario_policy)
    as (valid & missing & Hrun & _ & _ & _ & _ & _ & Hscn).
  - intros s. apply Permutation_refl.
  - reflexivity.
  - exists valid, missing. split; [exact Hrun |].
    apply (Hscn "svcA" "svcB" "R1" "R2"); try reflexivity.
    intros p. simpl. split.
    + intros [<- | [<- | []]]; auto.
    + intros [-> | ->]; auto.
Defined.

(** C4, the scenario as the claim has it: the principals are svcA and svcB,
    svcA holds only R1 and svcB neither, and the set is iterated svcB first;
    "missing" is then not the list of the claim. *)
Lemma validate_iam_permissions_order_counterexample :
  iter_ok reverse_order /\
  discover scenario_policy = ["svcA"; "svcB"] /\
  critical_roles scenario_sentinel = ["R1"; "R2"] /\
  _has_role "svcA" "R1" scenario_policy = true /\
  _has_role "svcA" "R2" scenario_policy = false /\
  _has_role "svcB" "R1" scenario_policy = false /\
  _has_role "svcB" "R2" scenario_policy = false /\
  snd (_validate_iam_permissions reverse_order scenario_sentinel scenario_world)
  = inl (["svcA:R1"], ["svcB:R1"; "svcB:R2"; "svcA:R2"]) /\
  snd (_validate_iam_permissions reverse_order scenario_sentinel scenario_world)
  <> inl (["svcA:R1"], ["svcA:R2"; "svcB:R1"; "svcB:R2"]).
Proof.
  split; [intros s; apply Permutation_rev |].
  repeat split; try reflexivity.
  vm_compute. discriminate.
Qed.

(** ** The member form *)

Lemma no_binding_of_role (r : string) (bs : list Binding) :
  existsb (fun b => String.eqb (role b) r) bs = false ->
  forall b, In b bs -> role b <> r.
Proof.
  intros H b Hb E.
  assert (T : existsb (fun b => String.eqb (role b) r) bs = true).
  { apply existsb_exists. exists b. split; [exact Hb | now apply String.eqb_eq]. }
  congruence.
Qed.

(** The bindings after [grant]: the first binding of the role extended, or
    a new binding at the end. *)
Lemma grant_cases (r member : string) (policy : Policy) :
  (exists pre b post,
     bindings policy = (pre ++ b :: post)%list /\ role b = r /\
     bindings (grant r member policy) =
       (pre ++ mkBinding r (members b ++ [member]) :: post)%list) \/
  ((forall b, In b (bindings policy) -> role b <> r) /\
   bindings (grant r member policy) =
     (bindings policy ++ [mkBinding r [member]])%list).
Proof.
  unfold grant.
  destruct (existsb (fun b => String.eqb (role b) r) (bindings policy)) eqn:E.
  - left. apply existsb_exists in E as (b0 & Hb0 & Hr0). apply String.eqb_eq in Hr0.
    destruct (append_to_role_found r member (bindings policy))
      as (pre & b & post & Hbs & Hr & _ & Happ); [eauto |].
    exists pre, b, post. rewrite Happ. auto.
  - right. pose proof (no_binding_of_role r _ E) as H.
    rewrite (append_to_role_absent r member _ H). auto.
Qed.

Lemma grant_members (r member : string) (policy : Policy) (b' : Binding) (x : string) :
  In b' (bindings (grant r member policy)) -> In x (members b') ->
  x = member \/
  exists b, In b (bindings policy) /\ role b = role b' /\ In x (members b).
Proof.
  intros Hb' Hx.
  destruct (grant_cases r member policy)
    as [(pre & b & post & Hbs & Hr & Hg) | [_ Hg]]; rewrite Hg in Hb'.
  - rewrite Hbs. apply in_app_iff in Hb' as [H | [<- | H]].
    + right. exists b'. rewrite in_app_iff. auto.
    + simpl in Hx. apply in_app_iff in Hx as [Hx | [<- | []]]; [| auto].
      right. exists b. rewrite in_app_iff. simpl. auto.
    + right. exists b'. rewrite in_app_iff. simpl. auto.
  - apply in_app_iff in Hb' as [H | [<- | []]].
    + right. exists b'. auto.
    + simpl in Hx. destruct Hx as [<- | []]. auto.
Qed.

Lemma grant_has_role (sa_email r : string) (policy : Policy) :
  _has_role sa_email r (grant r ("serviceAccount:" ++ sa_email) policy) = true.
Proof.
  apply _has_role_true.
  destruct (grant_cases r ("serviceAccount:" ++ sa_email) policy)
    as [(pre & b & post & _ & _ & Hg) | [_ Hg]]; rewrite Hg.
  - exists (mkBinding r (members b ++ ["serviceAccount:" ++ sa_email])).
    split; [apply in_elt | split; [reflexivity |]].
    cbn [members]. apply in_or_app. right. left. reflexivity.
  - exists (mkBinding r ["serviceAccount:" ++ sa_email]).
    split; [apply in_or_app; right; left; reflexivity |].
    split; [reflexivity | left; reflexivity].
Qed.

(** C10.  The member form is "serviceAccount:" followed by the email,
    everywhere.  [_has_role] holds exactly when a binding of the role lists
    that string.  [ensure_role] stops after the fetch exactly when
    [_has_role] holds, and otherwise writes the policy in which that string,
    and no other, has been added.  [_validate_iam_permissions] discovers a
    principal only from a member that starts with "serviceAccount:".  Hence
    a principal that no binding lists in this form holds no role, and a
    policy with no member of this form yields no principal. *)
Theorem serviceAccount_member_form (policy : Policy) :
  (forall sa_email r,
     _has_role sa_email r policy = true <->
     exists binding, In binding (bindings policy) /\ role binding = r /\
                     In ("serviceAccount:" ++ sa_email) (members binding)) /\
  (forall self sa_email r w,
     snd (get_iam_policy ("projects/" ++ project_id self) w) = inl policy ->
     calls (fst (ensure_role self sa_email r w)) =
       if _has_role sa_email r policy
       then (calls w ++ [get_iam_policy_call ("projects/" ++ project_id self)])%list
       else (calls w ++
             [get_iam_policy_call ("projects/" ++ project_id self);
              set_iam_policy_call ("projects/" ++ project_id self)
                (grant r ("serviceAccount:" ++ sa_email) policy)])%list) /\
  (forall r member b' x,
     In b' (bindings (grant r member policy)) -> In x (members b') ->
     x = member \/
     exists b, In b (bindings policy) /\ role b = role b' /\ In x (members b)) /\
  (forall sa_email r,
     _has_role sa_email r (grant r ("serviceAccount:" ++ sa_email) policy) = true) /\
  (forall p,
     In p (discover policy) <->
     exists b m, In b (bindings policy) /\ In m (members b) /\
                 startswith m "serviceAccount:" = true /\
                 p = replace m "serviceAccount:" "") /\
  (forall sa_email,
     (forall b, In b (bindings policy) ->
                ~ In ("serviceAccount:" ++ sa_email) (members b)) ->
     forall r, _has_role sa_email r policy = false) /\
  ((forall b m, In b (bindings policy) -> In m (members b) ->
                startswith m "serviceAccount:" = false) ->
   discover policy = [] /\
   forall set_iter self w,
     iter_ok set_iter ->
     snd (get_iam_policy ("projects/" ++ project_id self) w) = inl policy ->
     snd (_validate_iam_permissions set_iter self w) = inl ([], [])).
Proof.
  split; [intros; apply _has_role_true |].
  split.
  { intros self sa_email r w Hget.
    apply get_iam_policy_returns in Hget as [Hf Hp].
    rewrite ensure_role_run. cbv zeta. rewrite Hf, Hp.
    destruct (_has_role sa_email r policy); [reflexivity |].
    destruct (faults w (set_iam_policy_call _ _)); simpl;
      rewrite <- app_assoc; reflexivity. }
  split; [intros; eapply grant_members; eauto |].
  split; [intros; apply grant_has_role |].
  split; [intros; apply discover_In |].
  split.
  { intros sa_email H r. destruct (_has_role sa_email r policy) eqn:E; [| reflexivity].
    apply _has_role_true in E as (b & Hb & _ & Hm). destruct (H b Hb Hm). }
  intros H.
  assert (D : discover policy = []).
  { destruct (discover policy) as [| p l] eqn:E; [reflexivity |].
    assert (Hp : In p (discover policy)) by (rewrite E; simpl; auto).
    apply discover_In in Hp as (b & m & Hb & Hm & Hs & _).
    rewrite (H b m Hb Hm) in Hs. discriminate. }
  split; [exact D |].
  intros set_iter self w Hiter Hget.
  apply get_iam_policy_returns in Hget as [Hf Hp].
  rewrite validate_iam_permissions_run. cbv zeta. rewrite Hf, Hp, D.
  assert (N : set_iter [] = []).
  { apply Permutation_nil, Hiter. }
  rewrite N. reflexivity.
Qed.

(** Members in other forms: neither a holder of the role nor discovered. *)
Example other_member_forms :
  let policy := mkPolicy [mkBinding "R1" ["user:bob@x.org"; "bob@x.org"]] in
  _has_role "bob@x.org" "R1" policy = false /\ discover policy = [].
Proof. split; reflexivity. Qed.

(** ** [_store_key_in_secret_manager] *)

Lemma prefix_empty (s : string) : String.prefix "" s = true.
Proof. destruct s; reflexivity. Qed.

(** Replacing one character by another goes character by character. *)
Lemma replace_char (c d : ascii) (s : string) :
  replace s (String c "") (String d "") =
  map_chars (fun x => if Ascii.eqb x c then d else x) s.
Proof.
  unfold replace. induction s as [| a s IH]; [reflexivity |].
  cbn [replace_from map_chars String.prefix String.length Nat.sub].
  destruct (ascii_dec c a) as [<- | NE].
  - rewrite prefix_empty, Ascii.eqb_refl, IH. reflexivity.
  - destruct (Ascii.eqb_spec a c) as [-> | _]; [contradiction |].
    rewrite IH. reflexivity.
Qed.

Lemma secret_id_of_eq (sa_email : string) :
  secret_id_of sa_email = "sa-key-" ++ map_chars dash sa_email.
Proof.
  unfold secret_id_of. rewrite !replace_char. f_equal.
  induction sa_email as [| a s IH]; [reflexivity |].
  cbn [map_chars]. rewrite IH. f_equal. unfold dash.
  destruct (Ascii.eqb_spec a "@") as [-> | _]; [reflexivity |].
  reflexivity.
Qed.

Lemma create_secret_run (parent secret_id : string) (w : World) :
  let path := parent ++ "/secrets/" ++ secret_id in
  let w1 := with_calls w (calls w ++ [create_secret_call parent secret_id]) in
  create_secret parent secret_id w =
  match faults w (create_secret_call parent secret_id) with
  | Some e => (w1, inr e)
  | None =>
      match lookup_secret path (secrets w) with
      | Some _ => (w1, inr (AlreadyExists path))
      | None => (with_secrets w1 (secrets w ++ [(path, [])]), inl tt)
      end
  end.
Proof.
  cbv zeta. unfold create_secret, bind, request, get_world, put_world, raise.
  destruct (faults w (create_secret_call parent secret_id)); [reflexivity |].
  cbn [with_calls secrets].
  destruct (lookup_secret _ (secrets w)); reflexivity.
Qed.

Lemma add_secret_version_run (parent data : string) (w : World) :
  let w1 := with_calls w (calls w ++ [add_secret_version_call parent data]) in
  add_secret_version parent data w =
  match faults w (add_secret_version_call parent data) with
  | Some e => (w1, inr e)
  | None =>
      match lookup_secret parent (secrets w) with
      | Some _ => (with_secrets w1 (push_version parent data (secrets w)), inl tt)
      | None => (w1, inr (NotFound parent))
      end
  end.
Proof.
  cbv zeta. unfold add_secret_version, bind, request, get_world, put_world, raise.
  destruct (faults w (add_secret_version_call parent data)); [reflexivity |].
  cbn [with_calls secrets].
  destruct (lookup_secret parent (secrets w)); reflexivity.
Qed.

Lemma lookup_push_version (path data : string) (l : list (string * list string)) :
  lookup_secret path (push_version path data l) =
  option_map (fun vs => (vs ++ [data])%list) (lookup_secret path l).
Proof.
  induction l as [| [p vs] l IH]; [reflexivity |].
  simpl. destruct (String.eqb p path) eqn:E; simpl; rewrite E; auto.
Qed.

Lemma lookup_new_secret (path : string) (l : list (string * list string)) :
  lookup_secret path l = None ->
  lookup_secret path (l ++ [(path, [])]) = Some [].
Proof.
  induction l as [| [p vs] l IH]; simpl.
  - now rewrite String.eqb_refl.
  - destruct (String.eqb p path); [discriminate | exact IH].
Qed.

(** C8.  [_store_key_in_secret_manager] names the secret "sa-key-" followed
    by the email with every "@" and "." turned into "-"; it first asks for
    the secret to be created and goes on when that succeeds or raises
    [AlreadyExists]; it then asks once for a new version holding the key.
    It returns [True] when that last request succeeds, [False] when it or
    the creation fails, and raises in no case.  On [True] the secret has
    exactly one version more, the key. *)
Theorem store_key_in_secret_manager_spec
    (self : CloudSentinel) (sa_email key_data : string) (w : World) :
  let secret_id := secret_id_of sa_email in
  let parent := "projects/" ++ project_id self in
  let secret_path := "projects/" ++ project_id self ++ "/secrets/" ++ secret_id in
  let created := create_secret parent secret_id w in
  let added := add_secret_version secret_path key_data (fst created) in
  let r := _store_key_in_secret_manager self sa_email key_data w in
  secret_id = "sa-key-" ++ map_chars dash sa_email /\
  (exists b, snd r = inl b) /\
  ((snd created = inl tt \/ exists m, snd created = inr (AlreadyExists m)) ->
   r = (fst added, inl (match snd added with inl _ => true | inr _ => false end)) /\
   calls (fst r) =
     (calls w ++ [create_secret_call parent secret_id;
                  add_secret_version_call secret_path key_data])%list) /\
  (forall e, snd created = inr e -> is_AlreadyExists e = false ->
   r = (fst created, inl false) /\
   calls (fst r) = (calls w ++ [create_secret_call parent secret_id])%list) /\
  (snd r = inl true ->
   versions secret_path (fst r) = (versions secret_path w ++ [key_data])%list).
Proof.
  intros secret_id parent secret_path created added r.
  split; [apply secret_id_of_eq |].
  assert (Hc : created =
    let w1 := with_calls w (calls w ++ [create_secret_call parent secret_id]) in
    match faults w (create_secret_call parent secret_id) with
    | Some e => (w1, inr e)
    | None =>
        match lookup_secret secret_path (secrets w) with
        | Some _ => (w1, inr (AlreadyExists secret_path))
        | None => (with_secrets w1 (secrets w ++ [(secret_path, [])]), inl tt)
        end
    end) by apply create_secret_run.
  assert (Hr : r =
    match created with
    | (w1, inl _) =>
        let (w2, o) := add_secret_version secret_path key_data w1 in
        (w2, inl (match o with inl _ => true | inr _ => false end))
    | (w1, inr e) =>
        if is_AlreadyExists e
        then let (w2, o) := add_secret_version secret_path key_data w1 in
             (w2, inl (match o with inl _ => true | inr _ => false end))
        else (w1, inl false)
    end).
  { subst r created. unfold _store_key_in_secret_manager, try_except, bind.
    fold secret_id parent.
    destruct (create_secret parent secret_id w) as [w1 [[] | e]].
    - change (add_secret_version _ key_data w1)
        with (add_secret_version secret_path key_data w1).
      destruct (add_secret_version secret_path key_data w1) as [w2 [[] | e2]];
        reflexivity.
    - destruct (is_AlreadyExists e); [| reflexivity]. unfold ret at 1.
      change (add_secret_version _ key_data w1)
        with (add_secret_version secret_path key_data w1).
      destruct (add_secret_version secret_path key_data w1) as [w2 [[] | e2]];
        reflexivity. }
  assert (Ha : forall w1, faults w1 = faults w ->
    calls (fst (add_secret_version secret_path key_data w1)) =
    (calls w1 ++ [add_secret_version_call secret_path key_data])%list).
  { intros w1 _. rewrite add_secret_version_run. cbv zeta.
    destruct (faults w1 _); [reflexivity |].
    destruct (lookup_secret secret_path (secrets w1)); reflexivity. }
  assert (Hcc : calls (fst created) =
                (calls w ++ [create_secret_call parent secret_id])%list
                /\ faults (fst created) = faults w).
  { rewrite Hc. cbv zeta. destruct (faults w (create_secret_call _ _)); [auto |].
    destruct (lookup_secret secret_path (secrets w)); auto. }
  destruct Hcc as [Hcc Hcf].
  split; [| split; [| split]].
  - rewrite Hr. destruct created as [w1 [[] | e]].
    + destruct (add_secret_version secret_path key_data w1); simpl; eauto.
    + destruct (is_AlreadyExists e); [| simpl; eauto].
      destruct (add_secret_version secret_path key_data w1); simpl; eauto.
  - intros Hok.
    assert (E : r = (fst added,
                     inl (match snd added with inl _ => true | inr _ => false end))).
    { rewrite Hr. subst added. destruct created as [w1 [[] | e]]; simpl.
      - destruct (add_secret_version secret_path key_data w1); reflexivity.
      - destruct Hok as [Hok | [m Hok]]; simpl in Hok; [discriminate |].
        injection Hok as ->. simpl.
        destruct (add_secret_version secret_path key_data w1); reflexivity. }
    split; [exact E |]. rewrite E. cbn [fst]. subst added.
    rewrite (Ha _ Hcf), Hcc, <- app_assoc. reflexivity.
  - intros e He Hne.
    assert (E : r = (fst created, inl false)).
    { rewrite Hr. destruct created as [w1 [[] | e1]]; simpl in He; [discriminate |].
      injection He as ->. rewrite Hne. reflexivity. }
    split; [exact E |]. rewrite E. exact Hcc.
  - intros Htrue. unfold versions.
    assert (Hadd : exists w1 vs,
      (w1 = fst created) /\
      lookup_secret secret_path (secrets w1) = Some vs /\
      secrets (fst r) = push_version secret_path key_data (secrets w1)).
    { rewrite Hr in Htrue |- *. exists (fst created).
      assert (G : forall w1,
        snd (let (w2, o) := add_secret_version secret_path key_data w1 in
             (w2, @inl bool exn (match o with inl _ => true | inr _ => false end)))
        = inl true ->
        exists vs, lookup_secret secret_path (secrets w1) = Some vs /\
          secrets (fst (let (w2, o) := add_secret_version secret_path key_data w1 in
             (w2, @inl bool exn (match o with inl _ => true | inr _ => false end))))
          = push_version secret_path key_data (secrets w1)).
      { intros w1. rewrite add_secret_version_run. cbv zeta.
        destruct (faults w1 _); [simpl; discriminate |].
        destruct (lookup_secret secret_path (secrets w1)) as [vs |];
          [| simpl; discriminate].
        intros _. exists vs. auto. }
      destruct created as [w1 [[] | e]]; cbn [fst].
      - destruct (G w1 Htrue) as (vs & H1 & H2). eauto.
      - destruct (is_AlreadyExists e); [| simpl in Htrue; discriminate].
        destruct (G w1 Htrue) as (vs & H1 & H2). eauto. }
    destruct Hadd as (w1 & vs & Hw1 & Hl & Hs).
    rewrite Hs, lookup_push_version, Hl. cbn [option_map]. f_equal.
    subst w1. rewrite Hc in Hl. cbv zeta in Hl.
    destruct (faults w (create_secret_call parent secret_id)).
    + cbn [fst with_calls secrets] in Hl. now rewrite Hl.
    + destruct (lookup_secret secret_path (secrets w)) as [vs0 |] eqn:E0.
      * cbn [fst with_calls secrets] in Hl. congruence.
      * cbn [fst with_calls with_secrets secrets] in Hl.
        rewrite (lookup_new_secret _ _ E0) in Hl. congruence.
Qed.

Example store_key_run :
  let r := _store_key_in_secret_manager (create_cloud_sentinel "p" "global")
             "bot@p.iam.gserviceaccount.com" "KEY" all_enabled in
  snd r = inl true /\
  secrets (fst r) =
    [("projects/p/secrets/sa-key-bot-p-iam-gserviceaccount-com", ["KEY"])] /\
  calls (fst r) =
    [create_secret_call "projects/p" "sa-key-bot-p-iam-gserviceaccount-com";
     add_secret_version_call
       "projects/p/secrets/sa-key-bot-p-iam-gserviceaccount-com" "KEY"].
Proof. repeat split. Qed.

(** ** [ensure_environment] *)

(** The report, sub-pass by sub-pass. *)
Lemma ensure_environment_with_run
    (apis_pass iam_pass keys_pass : M World (list string * list string)) (w : World) :
  ensure_environment_with apis_pass iam_pass keys_pass w =
  match apis_pass w with
  | (w1, inr e) =>
      (w1, inl (mkReport [] [] [] [] [] [] (utcnow w) "error" (Some (str e))))
  | (w1, inl api_results) =>
      match iam_pass w1 with
      | (w2, inr e) =>
          (w2, inl (mkReport (fst api_results) (snd api_results) [] [] [] []
                      (utcnow w) "error" (Some (str e))))
      | (w2, inl iam_results) =>
          match keys_pass w2 with
          | (w3, inr e) =>
              (w3, inl (mkReport (fst api_results) (snd api_results)
                          (fst iam_results) (snd iam_results) [] []
                          (utcnow w) "error" (Some (str e))))
          | (w3, inl key_results) =>
              (w3, inl (mkReport (fst api_results) (snd api_results)
                          (fst iam_results) (snd iam_results)
                          (fst key_results) (snd key_results) (utcnow w)
                          (if truthy (snd api_results) || truthy (snd iam_results)
                              || truthy (snd key_results)
                           then "issues_found" else "healthy")
                          None))
          end
      end
  end.
Proof.
  unfold ensure_environment_with, try_except, ensure_environment_try, bind,
    in_world, update_results, results.
  cbn [fst snd].
  destruct (apis_pass w) as [w1 [ar | e]]; cbn [fst snd is_Exception];
    [| reflexivity].
  destruct (iam_pass w1) as [w2 [ir | e]]; cbn [fst snd is_Exception];
    [| reflexivity].
  destruct (keys_pass w2) as [w3 [kr | e]]; cbn [fst snd is_Exception];
    [| reflexivity].
  cbn [set_keys set_permissions set_apis apis_failed permissions_missing keys_failed].
  destruct (truthy (snd ar) || truthy (snd ir) || truthy (snd kr)); reflexivity.
Qed.

Lemma truthy_false {A} (l : list A) : truthy l = false <-> l = [].
Proof. destruct l; simpl; split; congruence. Qed.

(** C2.  Whatever the three sub-passes do, [ensure_environment] returns a
    report and raises nothing.  When a sub-pass raises, the status is
    "error", the entry "error" is the exception's message, the lists of
    the sub-passes that had returned hold what these returned, and the
    other lists are empty as created. *)
Theorem ensure_environment_never_raises
    (apis_pass iam_pass keys_pass : M World (list string * list string)) (w : World) :
  exists r,
    snd (ensure_environment_with apis_pass iam_pass keys_pass w) = inl r /\
    timestamp r = utcnow w /\
    match apis_pass w with
    | (_, inr e) =>
        overall_status r = "error" /\ error r = Some (str e) /\
        apis_enabled r = [] /\ apis_failed r = [] /\
        permissions_valid r = [] /\ permissions_missing r = [] /\
        keys_rotated r = [] /\ keys_failed r = []
    | (w1, inl api_results) =>
        apis_enabled r = fst api_results /\ apis_failed r = snd api_results /\
        match iam_pass w1 with
        | (_, inr e) =>
            overall_status r = "error" /\ error r = Some (str e) /\
            permissions_valid r = [] /\ permissions_missing r = [] /\
            keys_rotated r = [] /\ keys_failed r = []
        | (w2, inl iam_results) =>
            permissions_valid r = fst iam_results /\
            permissions_missing r = snd iam_results /\
            match keys_pass w2 with
            | (_, inr e) =>
                overall_status r = "error" /\ error r = Some (str e) /\
                keys_rotated r = [] /\ keys_failed r = []
            | (_, inl key_results) =>
                keys_rotated r = fst key_results /\
                keys_failed r = snd key_results /\
                error r = None /\
                overall_status r =
                  if truthy (snd api_results) || truthy (snd iam_results)
                     || truthy (snd key_results)
                  then "issues_found" else "healthy"
            end
        end
    end.
Proof.
  rewrite ensure_environment_with_run.
  destruct (apis_pass w) as [w1 [ar | e]]; [| eexists; repeat split].
  destruct (iam_pass w1) as [w2 [ir | e]]; [| eexists; repeat split].
  destruct (keys_pass w2) as [w3 [kr | e]]; eexists; repeat split.
Qed.

Example ensure_environment_iam_pass_raises :
  snd (ensure_environment_with
         (_ensure_required_apis (create_cloud_sentinel "p" "global"))
         failing_pass
         (_rotate_service_account_keys (create_cloud_sentinel "p" "global"))
         all_enabled)
  = inl (mkReport
           (required_apis (create_cloud_sentinel "p" "global")) [] [] [] [] []
           "2025-01-01T00:00:00" "error" (Some "503 backend unavailable")).
Proof. reflexivity. Qed.

(** C1 (as amended).  The report has three failure and missing lists:
    "apis_failed", "permissions_missing" and "keys_failed".  When no
    exception escapes a sub-pass, the status is "healthy" exactly when the
    three are empty and "issues_found" exactly when one of them is not;
    when an exception escapes a sub-pass, the status is "error". *)
Theorem ensure_environment_status
    (apis_pass iam_pass keys_pass : M World (list string * list string)) (w : World) :
  exists r,
    snd (ensure_environment_with apis_pass iam_pass keys_pass w) = inl r /\
    failure_lists r = [apis_failed r; permissions_missing r; keys_failed r] /\
    (escaping apis_pass iam_pass keys_pass w = None ->
     (overall_status r = "healthy" <->
      Forall (fun l => l = []) (failure_lists r)) /\
     (overall_status r = "issues_found" <->
      Exists (fun l => l <> []) (failure_lists r))) /\
    (forall e, escaping apis_pass iam_pass keys_pass w = Some e ->
     overall_status r = "error").
Proof.
  unfold escaping, bind. rewrite ensure_environment_with_run.
  destruct (apis_pass w) as [w1 [ar | e]];
    [| eexists; repeat split; cbn [snd]; discriminate].
  destruct (iam_pass w1) as [w2 [ir | e]];
    [| eexists; repeat split; cbn [snd]; discriminate].
  destruct (keys_pass w2) as [w3 [kr | e]];
    [| eexists; repeat split; cbn [snd]; discriminate].
  eexists. split; [reflexivity |]. split; [reflexivity |].
  split; [| cbn [snd]; discriminate].
  intros _. cbn [snd overall_status].
  change (failure_lists _) with [snd ar; snd ir; snd kr].
  destruct ar as [en fa], ir as [va mi], kr as [ro fl]. cbn [snd].
  split.
  - split.
    + intros H.
      destruct fa, mi, fl; simpl in H; try discriminate. repeat constructor.
    + intros H. inversion H as [| ? ? -> H1]; subst.
      inversion H1 as [| ? ? -> H2]; subst.
      inversion H2 as [| ? ? -> _]; subst. reflexivity.
  - split.
    + intros H. destruct fa.
      * destruct mi.
        -- destruct fl; [simpl in H; discriminate |].
           apply Exists_cons_tl, Exists_cons_tl, Exists_cons_hd. discriminate.
        -- apply Exists_cons_tl, Exists_cons_hd. discriminate.
      * apply Exists_cons_hd. discriminate.
    + intros H. destruct fa, mi, fl; try reflexivity.
      exfalso. inversion H as [? ? H0 | ? ? H1]; subst; [congruence |].
      inversion H1 as [? ? H0 | ? ? H2]; subst; [congruence |].
      inversion H2 as [? ? H0 | ? ? H3]; subst; [congruence | inversion H3].
Qed.

(** C1, as stated with four lists: on a project where every required
    service is enabled and the one service account holds every critical
    role, the run completes with status "healthy"; the failure and missing
    lists of the report are the three named here, not four, and of its
    other lists "apis_enabled" and "permissions_valid" are not empty.  With
    a key sub-pass that reports a rotated key, "keys_rotated" is not empty
    either and the status is still "healthy": no fourth list of the report
    bears on the status. *)
Lemma ensure_environment_four_lists_counterexample :
  (exists r,
     snd (ensure_environment insertion_order (create_cloud_sentinel "p" "global")
            healthy_world) = inl r /\
     overall_status r = "healthy" /\
     map fst (filter (fun kv => is_failure_key (fst kv)) (report_lists r))
     = ["apis_failed"; "permissions_missing"; "keys_failed"] /\
     failure_lists r = [[]; []; []] /\
     length (failure_lists r) <> 4 /\
     apis_enabled r <> [] /\
     permissions_valid r <> []) /\
  (exists r,
     snd (ensure_environment_with
            (_ensure_required_apis (create_cloud_sentinel "p" "global"))
            (_validate_iam_permissions insertion_order
               (create_cloud_sentinel "p" "global"))
            rotating_pass healthy_world) = inl r /\
     overall_status r = "healthy" /\
     keys_rotated r <> []).
Proof.
  split.
  - eexists. split; [vm_compute; reflexivity |].
    repeat split; try discriminate.
  - eexists. split; [vm_compute; reflexivity |].
    repeat split; try discriminate.
Qed.

(** *** The sub-passes of the agent raise nothing *)

Lemma try_except_Exception {S A} (body : M S A) (handler : exn -> M S A) (s : S) :
  (forall e s', exists a, snd (handler e s') = inl a) ->
  exists a, snd (try_except body is_Exception handler s) = inl a.
Proof.
  intros H. unfold try_except.
  destruct (body s) as [s' [a | e]]; simpl; [eauto | apply H].
Qed.

Lemma ensure_api_returns (self : CloudSentinel) (name : string) (w : World) :
  exists b, snd (ensure_api self name w) = inl b.
Proof.
  unfold ensure_api. apply try_except_Exception. intros e s'. now exists false.
Qed.

Lemma ensure_apis_loop_returns (self : CloudSentinel) (apis enabled failed : list string)
    (w : World) :
  exists res, snd (ensure_apis_loop self apis enabled failed w) = inl res.
Proof.
  revert enabled failed w.
  induction apis as [| api rest IH]; intros enabled failed w; simpl.
  - now exists (enabled, failed).
  - unfold bind. destruct (ensure_api_returns self api w) as [b Hb].
    destruct (ensure_api self api w) as [w1 [b' | e]]; simpl in Hb; [| discriminate].
    destruct b'; apply IH.
Qed.

Lemma validate_iam_permissions_returns (set_iter : pyset -> list string)
    (self : CloudSentinel) (w : World) :
  exists res, snd (_validate_iam_permissions set_iter self w) = inl res.
Proof.
  unfold _validate_iam_permissions. apply try_except_Exception.
  intros e s'. eexists. reflexivity.
Qed.

(** With the agent's own sub-passes nothing escapes, so its report is never
    in status "error". *)
Lemma ensure_environment_completes (set_iter : pyset -> list string)
    (self : CloudSentinel) (w : World) :
  escaping (_ensure_required_apis self) (_validate_iam_permissions set_iter self)
    (_rotate_service_account_keys self) w = None.
Proof.
  unfold escaping, bind, _ensure_required_apis.
  destruct (ensure_apis_loop_returns self (required_apis self) [] [] w) as [ar Ha].
  destruct (ensure_apis_loop self (required_apis self) [] [] w) as [w1 [ar' | e]];
    simpl in Ha; [| discriminate].
  destruct (validate_iam_permissions_returns set_iter self w1) as [ir Hi].
  destruct (_validate_iam_permissions set_iter self w1) as [w2 [ir' | e]];
    simpl in Hi; [| discriminate].
  reflexivity.
Qed.

(** ** [_rotate_service_account_keys] *)

(** C9.  [_rotate_service_account_keys] returns empty "rotated" and "failed"
    lists, whatever the agent and the project, and sends no request; in
    every report of [ensure_environment] the lists "keys_rotated" and
    "keys_failed" are therefore empty. *)
Theorem rotate_service_account_keys_noop (self : CloudSentinel) (w : World) :
  _rotate_service_account_keys self w = (w, inl ([], [])) /\
  forall set_iter r,
    snd (ensure_environment set_iter self w) = inl r ->
    keys_rotated r = [] /\ keys_failed r = [].
Proof.
  split; [reflexivity |].
  intros set_iter r. unfold ensure_environment.
  rewrite ensure_environment_with_run.
  destruct (_ensure_required_apis self w) as [w1 [ar | e]]; cbn [snd].
  - destruct (_validate_iam_permissions set_iter self w1) as [w2 [ir | e]];
      cbn [snd _rotate_service_account_keys try_except ret];
      intros H; injection H as <-; auto.
  - intros H; injection H as <-; auto.
Qed.

(** * Further properties *)

(** ** [ensure_api], request by request *)

Lemma get_service_run (name : string) (w : World) :
  get_service name w =
  let w1 := with_calls w (calls w ++ [get_service_call name]) in
  match faults w (get_service_call name) with
  | Some e => (w1, inr e)
  | None =>
      match services w name with
      | Some st => (w1, inl st)
      | None => (w1, inr (NotFound name))
      end
  end.
Proof.
  unfold get_service, bind, request, get_world, ret, raise. cbv zeta.
  destruct (faults w (get_service_call name)); [reflexivity |].
  cbn [with_calls services]. destruct (services w name); reflexivity.
Qed.

Lemma try_enable_run (sn : string) (w : World) :
  try_enable sn w =
  let w2 := with_calls w (calls w ++ [enable_service_call sn]) in
  match faults w (enable_service_call sn) with
  | Some _ => (w2, inl false)
  | None =>
      let w3 := with_calls w2 (calls w2 ++ [operation_result_call sn 300]) in
      match faults w (operation_result_call sn 300) with
      | Some _ => (w3, inl false)
      | None =>
          (with_services w3
             (fun n => if String.eqb n sn then Some ENABLED else services w n),
           inl true)
      end
  end.
Proof.
  unfold try_enable, try_except, enable_service, operation_result, request,
    get_world, put_world, ret, bind. cbv zeta.
  destruct (faults w (enable_service_call sn)); [reflexivity |].
  cbn [with_calls faults].
  destruct (faults w (operation_result_call sn 300)); reflexivity.
Qed.

Lemma ensure_api_run (self : CloudSentinel) (name : string) (w : World) :
  let sn := "projects/" ++ project_id self ++ "/services/" ++ name in
  ensure_api self name w =
  if not_enabled (snd (get_service sn w))
  then try_enable sn (fst (get_service sn w))
  else (fst (get_service sn w),
        inl (match snd (get_service sn w) with inl _ => true | inr _ => false end)).
Proof.
  intros sn. unfold ensure_api, try_enable, try_except, bind. fold sn.
  destruct (get_service sn w) as [w1 [st | e]]; cbn [fst snd not_enabled].
  - destruct st; reflexivity.
  - destruct (is_NotFound e); reflexivity.
Qed.

(** What a run of [ensure_api] leaves behind, whatever its course. *)
Lemma ensure_api_frame (self : CloudSentinel) (name : string) (w : World) :
  let sn := "projects/" ++ project_id self ++ "/services/" ++ name in
  let w' := fst (ensure_api self name w) in
  (exists b, snd (ensure_api self name w) = inl b) /\
  faults w' = faults w /\ iam_policy w' = iam_policy w /\
  secrets w' = secrets w /\ utcnow w' = utcnow w /\
  (exists l, calls w' = (calls w ++ l)%list /\ length l <= 3 /\
             Forall (fun c => is_service_usage_call c = true /\ call_resource c = sn) l) /\
  (forall n, n <> sn -> services w' n = services w n) /\
  (snd (ensure_api self name w) = inl true -> services w' sn = Some ENABLED) /\
  (snd (ensure_api self name w) = inl false -> services w' = services w).
Proof.
  intros sn w'. subst w'. rewrite ensure_api_run. fold sn.
  rewrite get_service_run. cbv zeta.
  assert (E : forall w1 : World,
    faults w1 = faults w -> iam_policy w1 = iam_policy w ->
    secrets w1 = secrets w -> utcnow w1 = utcnow w -> services w1 = services w ->
    calls w1 = (calls w ++ [get_service_call sn])%list ->
    let r := try_enable sn w1 in
    (exists b, snd r = inl b) /\
    faults (fst r) = faults w /\ iam_policy (fst r) = iam_policy w /\
    secrets (fst r) = secrets w /\ utcnow (fst r) = utcnow w /\
    (exists l, calls (fst r) = (calls w ++ l)%list /\ length l <= 3 /\
       Forall (fun c => is_service_usage_call c = true /\ call_resource c = sn) l) /\
    (forall n, n <> sn -> services (fst r) n = services w n) /\
    (snd r = inl true -> services (fst r) sn = Some ENABLED) /\
    (snd r = inl false -> services (fst r) = services w)).
  { intros w1 Hf Hi Hs Hu Hv Hc. cbv zeta. rewrite try_enable_run. cbv zeta.
    destruct (faults w1 (enable_service_call sn));
      [| destruct (faults w1 (operation_result_call sn 300))];
      cbn [fst snd with_calls with_services faults iam_policy secrets utcnow
           calls services];
      rewrite ?Hf, ?Hi, ?Hs, ?Hu, ?Hv, ?Hc;
      (split; [eexists; reflexivity |]);
      do 4 (split; [reflexivity |]);
      (split; [eexists; split; [rewrite <- ?app_assoc; reflexivity |];
               split; [simpl; auto |]; repeat constructor |]).
    - repeat split; auto; intros; discriminate.
    - repeat split; auto; intros; discriminate.
    - split; [| split].
      + intros n Hn. apply String.eqb_neq in Hn. now rewrite Hn.
      + intros _. now rewrite String.eqb_refl.
      + intros; discriminate. }
  assert (D : forall b : bool,
    let w1 := with_calls w (calls w ++ [get_service_call sn]) in
    (exists b0, @inl bool exn b = inl b0) /\
    faults w1 = faults w /\ iam_policy w1 = iam_policy w /\
    secrets w1 = secrets w /\ utcnow w1 = utcnow w /\
    (exists l, calls w1 = (calls w ++ l)%list /\ length l <= 3 /\
       Forall (fun c => is_service_usage_call c = true /\ call_resource c = sn) l) /\
    (forall n, n <> sn -> services w1 n = services w n) /\
    (@inl bool exn b = inl true -> b = true) /\
    (@inl bool exn b = inl false -> services w1 = services w)).
  { intros b. cbv zeta. split; [eauto |]. do 4 (split; [reflexivity |]).
    split; [exists [get_service_call sn]; repeat split; simpl; auto |].
    repeat split; congruence. }
  destruct (faults w (get_service_call sn)) as [e |].
  - cbn [fst snd not_enabled]. destruct (is_NotFound e).
    + now apply E.
    + destruct (D false) as (H1 & H2 & H3 & H4 & H5 & H6 & H7 & H8 & H9).
      repeat split; auto; intros; discriminate.
  - destruct (services w sn) as [st |] eqn:Est; cbn [fst snd not_enabled is_NotFound].
    + destruct st; try (now apply E).
      destruct (D true) as (H1 & H2 & H3 & H4 & H5 & H6 & H7 & H8 & H9).
      repeat split; auto; intros; discriminate.
    + now apply E.
Qed.

(** X1.  When [get_service] reports the service in a state other than
    [ENABLED], or raises [NotFound], and the provider accepts the enable
    request and the wait, [ensure_api] returns [True] after exactly three
    requests (the lookup, the enable request, the wait with a timeout of 300
    seconds); the service is then enabled, and nothing else has changed. *)
Theorem ensure_api_enables (self : CloudSentinel) (name : string) (w : World) :
  let sn := "projects/" ++ project_id self ++ "/services/" ++ name in
  let w' := fst (ensure_api self name w) in
  not_enabled (snd (get_service sn w)) = true ->
  faults w (enable_service_call sn) = None ->
  faults w (operation_result_call sn 300) = None ->
  snd (ensure_api self name w) = inl true /\
  calls w' = (calls w ++ [get_service_call sn; enable_service_call sn;
                          operation_result_call sn 300])%list /\
  services w' sn = Some ENABLED /\
  (forall n, n <> sn -> services w' n = services w n) /\
  iam_policy w' = iam_policy w /\ secrets w' = secrets w.
Proof.
  intros sn w' Hne He Ho. subst w'. rewrite ensure_api_run. fold sn.
  rewrite Hne, try_enable_run. cbv zeta.
  rewrite get_service_run in *. cbv zeta in *.
  assert (Hw : forall o : State + exn,
    fst (with_calls w (calls w ++ [get_service_call sn]), o)
    = with_calls w (calls w ++ [get_service_call sn])) by reflexivity.
  destruct (faults w (get_service_call sn)) as [e |];
    [| destruct (services w sn)]; rewrite Hw;
    cbn [faults with_calls]; rewrite He, Ho;
    cbn [fst snd calls services iam_policy secrets with_calls with_services];
    (split; [reflexivity |]);
    (split; [rewrite <- !app_assoc; reflexivity |]);
    (split; [now rewrite String.eqb_refl |]);
    (split; [| split; reflexivity]);
    intros n Hn; apply String.eqb_neq in Hn; now rewrite Hn.
Qed.

Lemma ensure_api_enables_witness :
  snd (ensure_api (create_cloud_sentinel "p" "global") "iam.googleapis.com"
         one_unknown) = inl true /\
  services (fst (ensure_api (create_cloud_sentinel "p" "global")
                   "iam.googleapis.com" one_unknown))
    "projects/p/services/iam.googleapis.com" = Some ENABLED.
Proof.
  destruct (ensure_api_enables (create_cloud_sentinel "p" "global")
              "iam.googleapis.com" one_unknown) as (Hr & _ & Hs & _);
    [reflexivity | reflexivity | reflexivity |].
  split; [exact Hr | exact Hs].
Defined.

(** X2.  When [get_service] raises anything but [NotFound], [ensure_api]
    returns [False] at once: the lookup is its only request, no enable
    request is attempted, and the provider's state is as it was. *)
Theorem ensure_api_fails_closed (self : CloudSentinel) (name : string) (w : World)
    (e : exn) :
  let sn := "projects/" ++ project_id self ++ "/services/" ++ name in
  let w' := fst (ensure_api self name w) in
  snd (get_service sn w) = inr e ->
  is_NotFound e = false ->
  snd (ensure_api self name w) = inl false /\
  calls w' = (calls w ++ [get_service_call sn])%list /\
  services w' = services w /\ iam_policy w' = iam_policy w /\
  secrets w' = secrets w.
Proof.
  intros sn w' Hg Hn. subst w'. rewrite ensure_api_run. fold sn.
  rewrite Hg. cbn [not_enabled]. rewrite Hn.
  rewrite get_service_run. cbv zeta.
  destruct (faults w (get_service_call sn)); [| destruct (services w sn)];
    repeat split.
Qed.

Lemma ensure_api_fails_closed_witness :
  snd (ensure_api (create_cloud_sentinel "p" "global") "iam.googleapis.com"
         lookup_denied) = inl false /\
  calls (fst (ensure_api (create_cloud_sentinel "p" "global") "iam.googleapis.com"
                lookup_denied))
  = [get_service_call "projects/p/services/iam.googleapis.com"].
Proof.
  destruct (ensure_api_fails_closed (create_cloud_sentinel "p" "global")
              "iam.googleapis.com" lookup_denied (PermissionDenied "403 denied"))
    as (Hr & Hc & _); [reflexivity | reflexivity |].
  split; [exact Hr | exact Hc].
Defined.

(** X3.  [ensure_api] raises nothing.  When it returns [True] the service is
    enabled; when it returns [False] no service has changed state.  In every
    case it sends at most three requests, all to the service-usage client
    and all naming "projects/{project}/services/{name}", and it leaves the
    other services, the IAM policies and the secrets alone. *)
Theorem ensure_api_postcondition (self : CloudSentinel) (name : string) (w : World) :
  let sn := "projects/" ++ project_id self ++ "/services/" ++ name in
  let w' := fst (ensure_api self name w) in
  (exists b, snd (ensure_api self name w) = inl b) /\
  (snd (ensure_api self name w) = inl true -> services w' sn = Some ENABLED) /\
  (snd (ensure_api self name w) = inl false -> services w' = services w) /\
  (forall n, n <> sn -> services w' n = services w n) /\
  (exists l, calls w' = (calls w ++ l)%list /\ length l <= 3 /\
             Forall (fun c => is_service_usage_call c = true /\ call_resource c = sn) l) /\
  iam_policy w' = iam_policy w /\ secrets w' = secrets w.
Proof.
  intros sn w'.
  destruct (ensure_api_frame self name w)
    as (H1 & _ & H3 & H4 & _ & H6 & H7 & H8 & H9).
  repeat split; assumption.
Qed.

(** X4.  [ensure_api] is idempotent: after a run that returned [True], a
    second run for the same name, when its lookup is answered, returns
    [True] with that lookup as its only request and changes nothing. *)
Theorem ensure_api_idempotent (self : CloudSentinel) (name : string) (w : World) :
  let sn := "projects/" ++ project_id self ++ "/services/" ++ name in
  let w1 := fst (ensure_api self name w) in
  let w2 := fst (ensure_api self name w1) in
  snd (ensure_api self name w) = inl true ->
  faults w (get_service_call sn) = None ->
  snd (ensure_api self name w1) = inl true /\
  calls w2 = (calls w1 ++ [get_service_call sn])%list /\
  services w2 = services w1 /\ iam_policy w2 = iam_policy w1 /\
  secrets w2 = secrets w1.
Proof.
  intros sn w1 w2 Ht Hf.
  destruct (ensure_api_frame self name w)
    as (_ & Hfa & _ & _ & _ & _ & _ & Hen & _).
  fold sn w1 in Hfa, Hen. specialize (Hen Ht).
  subst w2. rewrite ensure_api_run. fold sn. rewrite get_service_run. cbv zeta.
  rewrite Hfa, Hf, Hen. repeat split.
Qed.

Lemma ensure_api_idempotent_witness :
  calls (fst (ensure_api (create_cloud_sentinel "p" "global") "iam.googleapis.com"
            (fst (ensure_api (create_cloud_sentinel "p" "global")
                    "iam.googleapis.com" one_unknown))))
  = [get_service_call "projects/p/services/iam.googleapis.com";
     enable_service_call "projects/p/services/iam.googleapis.com";
     operation_result_call "projects/p/services/iam.googleapis.com" 300;
     get_service_call "projects/p/services/iam.googleapis.com"].
Proof.
  destruct (ensure_api_idempotent (create_cloud_sentinel "p" "global")
              "iam.googleapis.com" one_unknown) as (_ & Hc & _);
    [reflexivity | reflexivity |].
  exact Hc.
Defined.

(** ** [_ensure_required_apis] *)

Lemma ensure_api_keeps_enabled (self : CloudSentinel) (name : string) (w : World)
    (n : string) :
  services w n = Some ENABLED ->
  services (fst (ensure_api self name w)) n = Some ENABLED.
Proof.
  intros H.
  destruct (ensure_api_frame self name w)
    as ([b Hb] & _ & _ & _ & _ & _ & Hother & Htrue & Hfalse).
  destruct (String.eqb_spec n (service_name self name)) as [-> | Hn].
  - destruct b; [apply Htrue, Hb | now rewrite (Hfalse Hb)].
  - now rewrite (Hother n Hn).
Qed.

(** The loop of [_ensure_required_apis], from any point on. *)
Lemma ensure_apis_loop_frame (self : CloudSentinel) (apis enabled failed : list string)
    (w : World) :
  let r := ensure_apis_loop self apis enabled failed w in
  exists en fa,
    snd r = inl ((enabled ++ en)%list, (failed ++ fa)%list) /\
    Permutation (en ++ fa) apis /\
    (forall a, In a en -> services (fst r) (service_name self a) = Some ENABLED) /\
    (forall n, services w n = Some ENABLED -> services (fst r) n = Some ENABLED) /\
    faults (fst r) = faults w /\ iam_policy (fst r) = iam_policy w /\
    secrets (fst r) = secrets w /\ utcnow (fst r) = utcnow w /\
    (exists l, calls (fst r) = (calls w ++ l)%list /\
               length l <= 3 * length apis /\
               Forall (fun c => is_service_usage_call c = true) l).
Proof.
  cbv zeta. revert enabled failed w.
  induction apis as [| api rest IH]; intros enabled failed w.
  - exists [], []. cbn [ensure_apis_loop ret fst snd]. rewrite !app_nil_r.
    split; [reflexivity |]. split; [apply Permutation_refl |].
    split; [intros a [] |]. split; [auto |].
    do 4 (split; [reflexivity |]).
    exists []. rewrite app_nil_r. repeat split; auto.
  - cbn [ensure_apis_loop]. unfold bind.
    destruct (ensure_api_frame self api w)
      as ([b Hb] & Hf & Hi & Hs & Hu & (l & Hl & Hlen & Hall) & Hother & Htrue & _).
    pose proof (ensure_api_keeps_enabled self api w) as Hkeep.
    destruct (ensure_api self api w) as [w1 [b' | e]]; cbn [fst snd] in *;
      [| discriminate].
    injection Hb as ->.
    assert (Hcalls : forall (w2 : World) l2,
      calls w2 = (calls w1 ++ l2)%list -> length l2 <= 3 * length rest ->
      Forall (fun c => is_service_usage_call c = true) l2 ->
      exists l0, calls w2 = (calls w ++ l0)%list /\
                 length l0 <= 3 * length (api :: rest) /\
                 Forall (fun c => is_service_usage_call c = true) l0).
    { intros w2 l2 H2 Hlen2 Hall2. exists (l ++ l2)%list.
      rewrite H2, Hl, <- app_assoc. split; [reflexivity |]. split.
      - rewrite length_app. cbn [length]. lia.
      - apply Forall_app. split; [| exact Hall2].
        eapply Forall_impl; [| exact Hall]. now intros c [Hc _]. }
    destruct b.
    + destruct (IH (enabled ++ [api])%list failed w1)
        as (en & fa & Hr & Hp & Hen & Hk & Hf' & Hi' & Hs' & Hu' & (l2 & Hl2 & Hlen2 & Hall2)).
      exists (api :: en), fa. rewrite Hr, <- app_assoc.
      split; [reflexivity |]. split; [simpl; now constructor |].
      split.
      { intros a [<- | Ha]; [| now apply Hen]. apply Hk, Htrue. reflexivity. }
      split; [intros n Hn; apply Hk, Hkeep, Hn |].
      rewrite Hf', Hi', Hs', Hu'. repeat split; auto.
      eapply Hcalls; eauto.
    + destruct (IH enabled (failed ++ [api])%list w1)
        as (en & fa & Hr & Hp & Hen & Hk & Hf' & Hi' & Hs' & Hu' & (l2 & Hl2 & Hlen2 & Hall2)).
      exists en, (api :: fa). rewrite Hr, <- app_assoc.
      split; [reflexivity |].
      split; [apply Permutation_sym, Permutation_cons_app, Permutation_sym, Hp |].
      split; [exact Hen |].
      split; [intros n Hn; apply Hk, Hkeep, Hn |].
      rewrite Hf', Hi', Hs', Hu'. repeat split; auto.
      eapply Hcalls; eauto.
Qed.

(** X5.  [_ensure_required_apis] raises nothing and sorts every required
    API into exactly one of its two lists: "enabled" followed by "failed" is
    a rearrangement of [required_apis].  Every API it lists as enabled is
    enabled when it returns.  It sends at most three requests per API, all
    to the service-usage client, and leaves the IAM policies and the secrets
    alone. *)
Theorem ensure_required_apis_partition (self : CloudSentinel) (w : World) :
  let w' := fst (_ensure_required_apis self w) in
  exists enabled failed,
    snd (_ensure_required_apis self w) = inl (enabled, failed) /\
    Permutation (enabled ++ failed) (required_apis self) /\
    (forall a, In a enabled -> services w' (service_name self a) = Some ENABLED) /\
    (exists l, calls w' = (calls w ++ l)%list /\
               length l <= 3 * length (required_apis self) /\
               Forall (fun c => is_service_usage_call c = true) l) /\
    iam_policy w' = iam_policy w /\ secrets w' = secrets w.
Proof.
  cbv zeta. unfold _ensure_required_apis.
  destruct (ensure_apis_loop_frame self (required_apis self) [] [] w)
    as (en & fa & Hr & Hp & Hen & _ & _ & Hi & Hs & _ & Hl).
  exists en, fa. repeat split; assumption.
Qed.

Lemma ensure_api_fault_free (self : CloudSentinel) (name : string) (w : World) :
  fault_free w -> snd (ensure_api self name w) = inl true.
Proof.
  intros Hff. rewrite ensure_api_run, get_service_run. cbv zeta.
  rewrite (Hff (get_service_call _)).
  assert (T : forall w1, faults w1 = faults w ->
              snd (try_enable (service_name self name) w1) = inl true).
  { intros w1 Hf. rewrite try_enable_run. cbv zeta. rewrite Hf, !Hff.
    reflexivity. }
  destruct (services w _) as [[] |]; cbn [fst snd not_enabled is_NotFound];
    try (apply T; reflexivity).
  reflexivity.
Qed.

Lemma ensure_apis_loop_fault_free (self : CloudSentinel)
    (apis enabled failed : list string) (w : World) :
  fault_free w ->
  snd (ensure_apis_loop self apis enabled failed w)
  = inl ((enabled ++ apis)%list, failed).
Proof.
  revert enabled failed w.
  induction apis as [| api rest IH]; intros enabled failed w Hff.
  - cbn [ensure_apis_loop ret snd]. now rewrite app_nil_r.
  - cbn [ensure_apis_loop]. unfold bind.
    pose proof (ensure_api_fault_free self api w Hff) as Ht.
    destruct (ensure_api_frame self api w) as (_ & Hf & _).
    destruct (ensure_api self api w) as [w1 [b | e]]; cbn [fst snd] in *;
      [| discriminate].
    injection Ht as ->. rewrite IH.
    + now rewrite <- app_assoc.
    + intros c. rewrite Hf. apply Hff.
Qed.

(** X6.  Against a provider that refuses no request,
    [_ensure_required_apis] reports every required API as enabled, in the
    order of [required_apis], and none as failed; when it returns, every
    required API is enabled. *)
Theorem ensure_required_apis_fault_free (self : CloudSentinel) (w : World) :
  fault_free w ->
  snd (_ensure_required_apis self w) = inl (required_apis self, []) /\
  forall a, In a (required_apis self) ->
    services (fst (_ensure_required_apis self w)) (service_name self a)
    = Some ENABLED.
Proof.
  intros Hff. unfold _ensure_required_apis.
  pose proof (ensure_apis_loop_fault_free self (required_apis self) [] [] w Hff) as E.
  split; [exact E |].
  destruct (ensure_apis_loop_frame self (required_apis self) [] [] w)
    as (en & fa & Hr & _ & Hen & _).
  rewrite E in Hr. injection Hr as <- _. exact Hen.
Qed.

Lemma ensure_required_apis_fault_free_witness :
  snd (_ensure_required_apis (create_cloud_sentinel "p" "global") one_unknown)
  = inl (required_apis (create_cloud_sentinel "p" "global"), []) /\
  services (fst (_ensure_required_apis (create_cloud_sentinel "p" "global")
                   one_unknown))
    "projects/p/services/iam.googleapis.com" = Some ENABLED.
Proof.
  destruct (ensure_required_apis_fault_free (create_cloud_sentinel "p" "global")
              one_unknown) as [Hr He].
  - intros c. reflexivity.
  - split; [exact Hr |].
    apply (He "iam.googleapis.com"). simpl. auto.
Defined.

(** ** [ensure_role], the other paths *)

Lemma grant_keeps_role (r member : string) (policy : Policy) (p' r' : string) :
  _has_role p' r' policy = true ->
  _has_role p' r' (grant r member policy) = true.
Proof.
  intros H. apply _has_role_true in H as (b0 & Hb0 & Hr0 & Hm0).
  apply _has_role_true.
  destruct (grant_cases r member policy)
    as [(pre & b & post & Hbs & Hr & Hg) | [_ Hg]]; rewrite Hg.
  - rewrite Hbs in Hb0. apply in_app_iff in Hb0 as [Hb0 | [<- | Hb0]].
    + exists b0. rewrite in_app_iff. auto.
    + exists (mkBinding r (members b ++ [member])).
      split; [apply in_elt |]. split; [cbn [role]; congruence |].
      cbn [members]. apply in_or_app. now left.
    + exists b0. rewrite in_app_iff. simpl. auto.
  - exists b0. rewrite in_app_iff. auto.
Qed.

(** X7.  [ensure_role] raises nothing, and a run that returns [False] has
    changed no policy.  When the policy fetch raises, the fetch is the only
    request: no write is attempted.  In every case the services, the
    secrets and the policies of other resources are left alone. *)
Theorem ensure_role_fails_closed
    (self : CloudSentinel) (sa_email r : string) (w : World) :
  let resource := "projects/" ++ project_id self in
  let w' := fst (ensure_role self sa_email r w) in
  (exists b, snd (ensure_role self sa_email r w) = inl b) /\
  (snd (ensure_role self sa_email r w) = inl false -> iam_policy w' = iam_policy w) /\
  (forall e, snd (get_iam_policy resource w) = inr e ->
     snd (ensure_role self sa_email r w) = inl false /\
     calls w' = (calls w ++ [get_iam_policy_call resource])%list) /\
  (forall x, x <> resource -> iam_policy w' x = iam_policy w x) /\
  services w' = services w /\ secrets w' = secrets w.
Proof.
  intros resource w'. subst w'. rewrite ensure_role_run. cbv zeta. fold resource.
  rewrite get_iam_policy_run. cbv zeta.
  destruct (faults w (get_iam_policy_call resource)) as [e0 |];
    [| destruct (_has_role sa_email r (iam_policy w resource));
       [| destruct (faults w (set_iam_policy_call resource _))]];
    cbn [fst snd iam_policy with_iam_policy with_calls services secrets];
    (split; [eexists; reflexivity |]);
    repeat split; auto; try (intros; discriminate).
  intros x Hx. apply String.eqb_neq in Hx. now rewrite Hx.
Qed.

(** X8.  When [ensure_role] returns [True], the stored policy of the
    project has a binding of the role that lists
    "serviceAccount:" + the email. *)
Theorem ensure_role_postcondition
    (self : CloudSentinel) (sa_email r : string) (w : World) :
  let resource := "projects/" ++ project_id self in
  let w' := fst (ensure_role self sa_email r w) in
  snd (ensure_role self sa_email r w) = inl true ->
  _has_role sa_email r (iam_policy w' resource) = true.
Proof.
  intros resource w'. subst w'. rewrite ensure_role_run. cbv zeta. fold resource.
  destruct (faults w (get_iam_policy_call resource)); [discriminate |].
  destruct (_has_role sa_email r (iam_policy w resource)) eqn:E; [auto |].
  destruct (faults w (set_iam_policy_call resource _)); [discriminate |].
  intros _. cbn [fst iam_policy with_iam_policy]. rewrite String.eqb_refl.
  apply grant_has_role.
Qed.

Lemma ensure_role_postcondition_witness :
  _has_role "svcB" "R2"
    (iam_policy (fst (ensure_role scenario_sentinel "svcB" "R2" scenario_world))
       "projects/p") = true.
Proof.
  apply (ensure_role_postcondition scenario_sentinel "svcB" "R2" scenario_world).
  reflexivity.
Defined.



(** X10.  [ensure_role] revokes nothing: a service account that holds a
    role in the project's policy before a run holds it after the run, for
    every account and every role. *)
Theorem ensure_role_never_revokes
    (self : CloudSentinel) (sa_email r : string) (w : World) (p' r' : string) :
  let resource := "projects/" ++ project_id self in
  let w' := fst (ensure_role self sa_email r w) in
  _has_role p' r' (iam_policy w resource) = true ->
  _has_role p' r' (iam_policy w' resource) = true.
Proof.
  intros resource w' H. subst w'. rewrite ensure_role_run. cbv zeta. fold resource.
  destruct (faults w (get_iam_policy_call resource)); [exact H |].
  destruct (_has_role sa_email r (iam_policy w resource)); [exact H |].
  destruct (faults w (set_iam_policy_call resource _)); [exact H |].
  cbn [fst iam_policy with_iam_policy]. rewrite String.eqb_refl.
  now apply grant_keeps_role.
Qed.

Lemma ensure_role_never_revokes_witness :
  _has_role "svcA" "R1"
    (iam_policy (fst (ensure_role scenario_sentinel "svcB" "R1" scenario_world))
       "projects/p") = true.
Proof.
  apply (ensure_role_never_revokes scenario_sentinel "svcB" "R1" scenario_world
           "svcA" "R1").
  reflexivity.
Defined.

(** ** [_validate_iam_permissions], counts and discovery *)

Lemma prefix_app (s t : string) : String.prefix s (s ++ t) = true.
Proof.
  induction s as [| a s IH]; [apply prefix_empty |].
  cbn [append String.prefix]. destruct (ascii_dec a a); [exact IH | contradiction].
Qed.

Lemma replace_absent (s old new : string) :
  contains s old = false -> replace s old new = s.
Proof.
  unfold replace. induction s as [| c s IH]; intros H; [reflexivity |].
  cbn [contains] in H. apply orb_false_iff in H as [Hp Hc].
  cbn [replace_from]. rewrite Hp, (IH Hc). reflexivity.
Qed.

Lemma replace_from_skip (old new t e : string) :
  replace_from old new (String.length t) (t ++ e) = replace_from old new 0 e.
Proof.
  induction t as [| c t IH]; [destruct e; reflexivity |].
  cbn [String.length append replace_from]. exact IH.
Qed.

(** Stripping the prefix of a member: what is left is replaced in turn. *)
Lemma replace_strip (c : ascii) (old' e : string) :
  replace (String c old' ++ e) (String c old') "" = replace e (String c old') "".
Proof.
  unfold replace. cbn [append]. cbn [replace_from].
  change (String c (old' ++ e)) with (String c old' ++ e).
  rewrite prefix_app. cbn [String.length Nat.sub append].
  rewrite Nat.sub_0_r. apply replace_from_skip.
Qed.

Lemma discover_ordinary (policy : Policy) (b : Binding) (e : string) :
  In b (bindings policy) ->
  In ("serviceAccount:" ++ e) (members b) ->
  contains e "serviceAccount:" = false ->
  In e (discover policy).
Proof.
  intros Hb Hm Hc. apply discover_In. exists b, ("serviceAccount:" ++ e).
  split; [exact Hb |]. split; [exact Hm |]. split.
  - unfold startswith. apply prefix_app.
  - rewrite replace_strip. symmetry. now apply replace_absent.
Qed.

Lemma length_valid_missing (policy : Policy) (roles : list string) (p : string) :
  length (valid_of policy roles p) + length (missing_of policy roles p)
  = length roles.
Proof.
  unfold valid_of, missing_of. rewrite !length_map.
  induction roles as [| r roles IH]; [reflexivity |].
  cbn [filter]. destruct (_has_role p r policy); cbn [negb length]; lia.
Qed.

Lemma length_entries (policy : Policy) (roles accounts : list string) :
  length (flat_map (valid_of policy roles) accounts)
  + length (flat_map (missing_of policy roles) accounts)
  = length accounts * length roles.
Proof.
  induction accounts as [| p accounts IH]; [reflexivity |].
  cbn [flat_map length]. rewrite !length_app.
  pose proof (length_valid_missing policy roles p). lia.
Qed.

(** X11.  When the policy fetch succeeds, [_validate_iam_permissions]
    checks every discovered principal against every critical role exactly
    once: "valid" and "missing" together hold as many entries as there are
    principals times critical roles.  The fetch is its only request, and it
    changes nothing at the provider. *)
Theorem validate_iam_permissions_counts
    (set_iter : pyset -> list string) (self : CloudSentinel) (w : World)
    (policy : Policy) :
  let resource := "projects/" ++ project_id self in
  let w' := fst (_validate_iam_permissions set_iter self w) in
  iter_ok set_iter ->
  snd (get_iam_policy resource w) = inl policy ->
  exists valid missing,
    snd (_validate_iam_permissions set_iter self w) = inl (valid, missing) /\
    length valid + length missing
    = length (discover policy) * length (critical_roles self) /\
    calls w' = (calls w ++ [get_iam_policy_call resource])%list /\
    iam_policy w' = iam_policy w /\ services w' = services w /\
    secrets w' = secrets w.
Proof.
  intros resource w' Hiter Hget. subst w'.
  apply get_iam_policy_returns in Hget as [Hf Hp].
  rewrite validate_iam_permissions_run. cbv zeta. fold resource. rewrite Hf, Hp.
  do 2 eexists. split; [reflexivity |]. split; [| repeat split].
  rewrite length_entries. f_equal. symmetry. apply Permutation_length, Hiter.
Qed.

Lemma validate_iam_permissions_counts_witness :
  exists valid missing,
    snd (_validate_iam_permissions reverse_order scenario_sentinel scenario_world)
    = inl (valid, missing) /\
    length valid + length missing = 4.
Proof.
  destruct (validate_iam_permissions_counts reverse_order scenario_sentinel
              scenario_world scenario_policy)
    as (valid & missing & Hr & Hn & _).
  - intros s. apply Permutation_rev.
  - reflexivity.
  - exists valid, missing. split; [exact Hr | exact Hn].
Defined.

(** X12.  A member "serviceAccount:" + email of a binding whose role is
    critical is reported as valid for that role, when the email does not
    itself contain "serviceAccount:". *)
Theorem validate_iam_permissions_reports_member
    (set_iter : pyset -> list string) (self : CloudSentinel) (w : World)
    (policy : Policy) (b : Binding) (e : string) :
  iter_ok set_iter ->
  snd (get_iam_policy ("projects/" ++ project_id self) w) = inl policy ->
  In b (bindings policy) ->
  In ("serviceAccount:" ++ e) (members b) ->
  contains e "serviceAccount:" = false ->
  In (role b) (critical_roles self) ->
  exists valid missing,
    snd (_validate_iam_permissions set_iter self w) = inl (valid, missing) /\
    In (entry e (role b)) valid.
Proof.
  intros Hiter Hget Hb Hm Hc Hr.
  apply get_iam_policy_returns in Hget as [Hf Hp].
  rewrite validate_iam_permissions_run. cbv zeta. rewrite Hf, Hp.
  do 2 eexists. split; [reflexivity |].
  apply In_valid_of. exists e, (role b).
  split; [apply (iter_ok_In set_iter _ e Hiter); eapply discover_ordinary; eauto |].
  split; [exact Hr |]. split; [| reflexivity].
  apply _has_role_true. eauto.
Qed.

Lemma validate_iam_permissions_reports_member_witness :
  exists valid missing,
    snd (_validate_iam_permissions insertion_order scenario_sentinel scenario_world)
    = inl (valid, missing) /\
    In "svcA:R1" valid.
Proof.
  apply (validate_iam_permissions_reports_member insertion_order scenario_sentinel
           scenario_world scenario_policy
           (mkBinding "R1" ["serviceAccount:svcA"]) "svcA").
  - intros s. apply Permutation_refl.
  - reflexivity.
  - simpl. auto.
  - simpl. auto.
  - reflexivity.
  - simpl. auto.
Defined.




(** ** [_store_key_in_secret_manager], names and repetition *)

Lemma map_chars_app (f : ascii -> ascii) (s t : string) :
  map_chars f (s ++ t) = map_chars f s ++ map_chars f t.
Proof.
  induction s as [| c s IH]; [reflexivity |].
  cbn [append map_chars]. now rewrite IH.
Qed.

Lemma append_inv_head (s t u : string) : s ++ t = s ++ u -> t = u.
Proof.
  induction s as [| c s IH]; [auto |].
  cbn [append]. intros H. injection H as H. auto.
Qed.

(** X14.  The secret identifier does not tell "@", "." and "-" apart, so
    two different emails can share one identifier: moving the "@" to the
    place of a "-" gives another email with the same secret.  The
    identifier is seven characters longer than the email. *)
Theorem secret_id_collision (a b c : string) :
  a ++ "-" ++ b ++ "@" ++ c <> a ++ "@" ++ b ++ "-" ++ c /\
  secret_id_of (a ++ "-" ++ b ++ "@" ++ c) = secret_id_of (a ++ "@" ++ b ++ "-" ++ c) /\
  secret_id_of (a ++ "." ++ b) = secret_id_of (a ++ "@" ++ b) /\
  String.length (secret_id_of a) = 7 + String.length a.
Proof.
  split; [| split; [| split]].
  - intros H. apply append_inv_head in H. discriminate.
  - rewrite !secret_id_of_eq, !map_chars_app. reflexivity.
  - rewrite !secret_id_of_eq, !map_chars_app. reflexivity.
  - rewrite secret_id_of_eq. cbn [append String.length]. do 7 f_equal.
    induction a as [| x a IH]; [reflexivity |].
    cbn [map_chars String.length]. now rewrite IH.
Qed.

Lemma store_key_unfold (self : CloudSentinel) (sa_email key_data : string) (w : World) :
  let secret_id := secret_id_of sa_email in
  let parent := "projects/" ++ project_id self in
  let secret_path := "projects/" ++ project_id self ++ "/secrets/" ++ secret_id in
  let add_step := fun w1 =>
    (fst (add_secret_version secret_path key_data w1),
     @inl bool exn
       (match snd (add_secret_version secret_path key_data w1) with
        | inl _ => true
        | inr _ => false
        end)) in
  _store_key_in_secret_manager self sa_email key_data w =
  match create_secret parent secret_id w with
  | (w1, inl _) => add_step w1
  | (w1, inr e) => if is_AlreadyExists e then add_step w1 else (w1, inl false)
  end.
Proof.
  intros secret_id parent secret_path add_step. subst add_step.
  unfold _store_key_in_secret_manager, try_except, bind.
  fold secret_id parent.
  destruct (create_secret parent secret_id w) as [w1 [[] | e]].
  - change (add_secret_version _ key_data w1)
      with (add_secret_version secret_path key_data w1).
    destruct (add_secret_version secret_path key_data w1) as [w2 [[] | e2]];
      reflexivity.
  - destruct (is_AlreadyExists e); [| reflexivity]. unfold ret at 1.
    change (add_secret_version _ key_data w1)
      with (add_secret_version secret_path key_data w1).
    destruct (add_secret_version secret_path key_data w1) as [w2 [[] | e2]];
      reflexivity.
Qed.

Lemma lookup_push_version_other (path path' data : string)
    (l : list (string * list string)) :
  path' <> path ->
  lookup_secret path' (push_version path data l) = lookup_secret path' l.
Proof.
  intros Hne. induction l as [| [p vs] l IH]; [reflexivity |].
  cbn [push_version]. destruct (String.eqb_spec p path) as [-> | Hp].
  - cbn [lookup_secret].
    destruct (String.eqb_spec path path'); [congruence | reflexivity].
  - cbn [lookup_secret]. now rewrite IH.
Qed.

Lemma lookup_new_secret_other (path path' : string) (l : list (string * list string)) :
  path' <> path ->
  lookup_secret path' (l ++ [(path, [])]) = lookup_secret path' l.
Proof.
  intros Hne. induction l as [| [p vs] l IH].
  - cbn [app lookup_secret]. destruct (String.eqb_spec path path'); congruence.
  - cbn [app lookup_secret]. now rewrite IH.
Qed.

(** What the two requests leave behind. *)
Lemma create_secret_frame (parent secret_id : string) (w : World) :
  let path := parent ++ "/secrets/" ++ secret_id in
  let w1 := fst (create_secret parent secret_id w) in
  faults w1 = faults w /\ services w1 = services w /\ iam_policy w1 = iam_policy w /\
  calls w1 = (calls w ++ [create_secret_call parent secret_id])%list /\
  (forall path', path' <> path ->
     lookup_secret path' (secrets w1) = lookup_secret path' (secrets w)) /\
  versions path w1 = versions path w /\
  (snd (create_secret parent secret_id w) = inl tt ->
   lookup_secret path (secrets w1) <> None) /\
  (faults w (create_secret_call parent secret_id) = None ->
   lookup_secret path (secrets w1) <> None /\
   (snd (create_secret parent secret_id w) = inl tt \/
    snd (create_secret parent secret_id w) = inr (AlreadyExists path))).
Proof.
  cbv zeta. rewrite create_secret_run. cbv zeta.
  destruct (faults w (create_secret_call parent secret_id)).
  { cbn [fst snd]. repeat split; auto; intros; discriminate. }
  destruct (lookup_secret _ (secrets w)) eqn:E;
    cbn [fst snd faults services iam_policy calls secrets with_calls with_secrets].
  - repeat split; auto; try (intros; discriminate); rewrite E; discriminate.
  - unfold versions. cbn [secrets with_secrets with_calls].
    rewrite (lookup_new_secret _ _ E), E.
    repeat split; auto; try discriminate.
    intros path' Hne. now apply lookup_new_secret_other.
Qed.

Lemma add_secret_version_frame (path data : string) (w : World) :
  let w1 := fst (add_secret_version path data w) in
  faults w1 = faults w /\ services w1 = services w /\ iam_policy w1 = iam_policy w /\
  calls w1 = (calls w ++ [add_secret_version_call path data])%list /\
  (forall path', path' <> path ->
     lookup_secret path' (secrets w1) = lookup_secret path' (secrets w)) /\
  (faults w (add_secret_version_call path data) = None ->
   lookup_secret path (secrets w) <> None ->
   snd (add_secret_version path data w) = inl tt /\
   versions path w1 = (versions path w ++ [data])%list).
Proof.
  cbv zeta. rewrite add_secret_version_run. cbv zeta.
  destruct (faults w (add_secret_version_call path data)).
  { cbn [fst snd]. repeat split; auto; intros; discriminate. }
  destruct (lookup_secret path (secrets w)) eqn:E;
    cbn [fst snd faults services iam_policy calls secrets with_calls with_secrets].
  - unfold versions. cbn [secrets with_secrets with_calls].
    rewrite lookup_push_version, E. cbn [option_map].
    repeat split; auto.
    intros path' Hne. now apply lookup_push_version_other.
  - repeat split; auto; intros; congruence.
Qed.

Lemma store_key_fault_free (self : CloudSentinel) (sa_email key_data : string)
    (w : World) :
  let secret_path :=
    "projects/" ++ project_id self ++ "/secrets/" ++ secret_id_of sa_email in
  let r := _store_key_in_secret_manager self sa_email key_data w in
  fault_free w ->
  snd r = inl true /\ fault_free (fst r) /\
  versions secret_path (fst r) = (versions secret_path w ++ [key_data])%list.
Proof.
  intros secret_path r Hff. subst r. rewrite store_key_unfold. cbv zeta.
  fold secret_path.
  destruct (create_secret_frame ("projects/" ++ project_id self)
              (secret_id_of sa_email) w)
    as (Hf & _ & _ & _ & _ & Hv & _ & Hc).
  destruct (Hc (Hff _)) as [Hex Hout]. clear Hc.
  change (("projects/" ++ project_id self) ++ "/secrets/" ++ secret_id_of sa_email)
    with secret_path in Hv, Hex, Hout.
  assert (G : forall w1, faults w1 = faults w ->
    lookup_secret secret_path (secrets w1) <> None ->
    versions secret_path w1 = versions secret_path w ->
    let a := add_secret_version secret_path key_data w1 in
    match snd a with inl _ => true | inr _ => false end = true /\
    fault_free (fst a) /\
    versions secret_path (fst a) = (versions secret_path w ++ [key_data])%list).
  { intros w1 Hf1 Hex1 Hv1. cbv zeta.
    destruct (add_secret_version_frame secret_path key_data w1)
      as (Hf2 & _ & _ & _ & _ & Hadd).
    destruct Hadd as [Ha Hva]; [rewrite Hf1; apply Hff | exact Hex1 |].
    rewrite Ha, Hva, Hv1. repeat split.
    intros c. rewrite Hf2, Hf1. apply Hff. }
  destruct (create_secret ("projects/" ++ project_id self) (secret_id_of sa_email) w)
    as [w1 [[] | e]]; cbn [fst snd] in *.
  - destruct (G w1 Hf Hex Hv) as (G1 & G2 & G3). rewrite G1. auto.
  - destruct Hout as [Hout | Hout]; [discriminate |]. injection Hout as ->.
    cbn [is_AlreadyExists fst snd].
    destruct (G w1 Hf Hex Hv) as (G1 & G2 & G3). rewrite G1. auto.
Qed.

(** X15.  Against a provider that refuses no request, storing a key
    succeeds whether or not the secret exists already, and storing twice
    keeps both keys: the secret ends with the two keys as its newest
    versions, in the order of the calls. *)
Theorem store_key_twice (self : CloudSentinel) (sa_email key1 key2 : string)
    (w : World) :
  let secret_path :=
    "projects/" ++ project_id self ++ "/secrets/" ++ secret_id_of sa_email in
  let r1 := _store_key_in_secret_manager self sa_email key1 w in
  let r2 := _store_key_in_secret_manager self sa_email key2 (fst r1) in
  fault_free w ->
  snd r1 = inl true /\ snd r2 = inl true /\
  versions secret_path (fst r2) = (versions secret_path w ++ [key1; key2])%list.
Proof.
  intros secret_path r1 r2 Hff. subst r1 r2.
  destruct (store_key_fault_free self sa_email key1 w Hff) as (H1 & Hff1 & Hv1).
  destruct (store_key_fault_free self sa_email key2 _ Hff1) as (H2 & _ & Hv2).
  split; [exact H1 |]. split; [exact H2 |].
  fold secret_path in Hv1, Hv2. rewrite Hv2, Hv1.
  now rewrite <- app_assoc.
Qed.

Lemma store_key_twice_witness :
  versions "projects/p/secrets/sa-key-bot-p-iam"
    (fst (_store_key_in_secret_manager (create_cloud_sentinel "p" "global")
            "bot@p.iam" "KEY2"
            (fst (_store_key_in_secret_manager
                    (create_cloud_sentinel "p" "global")
                    "bot@p.iam" "KEY1" all_enabled))))
  = ["KEY1"; "KEY2"].
Proof.
  destruct (store_key_twice (create_cloud_sentinel "p" "global") "bot@p.iam"
              "KEY1" "KEY2" all_enabled) as (_ & _ & Hv).
  - intros c. reflexivity.
  - exact Hv.
Defined.

(** X16.  [_store_key_in_secret_manager] touches one secret only: every
    other secret, the services and the IAM policies are as before, whatever
    the outcome.  It sends the creation request and at most one request for
    a new version, and a run that returns [False] has added no version. *)
Theorem store_key_frame (self : CloudSentinel) (sa_email key_data : string)
    (w : World) :
  let secret_id := secret_id_of sa_email in
  let parent := "projects/" ++ project_id self in
  let secret_path := "projects/" ++ project_id self ++ "/secrets/" ++ secret_id in
  let r := _store_key_in_secret_manager self sa_email key_data w in
  (forall path', path' <> secret_path ->
     lookup_secret path' (secrets (fst r)) = lookup_secret path' (secrets w)) /\
  services (fst r) = services w /\ iam_policy (fst r) = iam_policy w /\
  (calls (fst r) = (calls w ++ [create_secret_call parent secret_id])%list \/
   calls (fst r) = (calls w ++ [create_secret_call parent secret_id;
                                add_secret_version_call secret_path key_data])%list) /\
  (snd r = inl false -> versions secret_path (fst r) = versions secret_path w).
Proof.
  intros secret_id parent secret_path r. subst r. rewrite store_key_unfold.
  cbv zeta. fold secret_id parent secret_path.
  destruct (create_secret_frame parent secret_id w)
    as (Hf & Hs & Hi & Hc & Ho & Hv & _ & _).
  change (parent ++ "/secrets/" ++ secret_id) with secret_path in Ho, Hv.
  assert (G : forall w1,
    faults w1 = faults w -> services w1 = services w -> iam_policy w1 = iam_policy w ->
    calls w1 = (calls w ++ [create_secret_call parent secret_id])%list ->
    (forall path', path' <> secret_path ->
       lookup_secret path' (secrets w1) = lookup_secret path' (secrets w)) ->
    versions secret_path w1 = versions secret_path w ->
    let a := add_secret_version secret_path key_data w1 in
    (forall path', path' <> secret_path ->
       lookup_secret path' (secrets (fst a)) = lookup_secret path' (secrets w)) /\
    services (fst a) = services w /\ iam_policy (fst a) = iam_policy w /\
    calls (fst a) = (calls w ++ [create_secret_call parent secret_id;
                                 add_secret_version_call secret_path key_data])%list /\
    (@inl bool exn (match snd a with inl _ => true | inr _ => false end) = inl false ->
     versions secret_path (fst a) = versions secret_path w)).
  { intros w1 Hf1 Hs1 Hi1 Hc1 Ho1 Hv1. cbv zeta.
    destruct (add_secret_version_frame secret_path key_data w1)
      as (_ & Hs2 & Hi2 & Hc2 & Ho2 & _).
    split; [intros p Hp; rewrite (Ho2 p Hp); now apply Ho1 |].
    split; [congruence |]. split; [congruence |].
    split; [rewrite Hc2, Hc1, <- app_assoc; reflexivity |].
    rewrite add_secret_version_run. cbv zeta.
    destruct (faults w1 _); [cbn [fst snd]; auto |].
    destruct (lookup_secret secret_path (secrets w1)); cbn [fst snd]; auto.
    intros; discriminate. }
  destruct (create_secret parent secret_id w) as [w1 [[] | e]]; cbn [fst snd] in *.
  - destruct (G w1 Hf Hs Hi Hc Ho Hv) as (G1 & G2 & G3 & G4 & G5).
    repeat split; auto.
  - destruct (is_AlreadyExists e).
    + destruct (G w1 Hf Hs Hi Hc Ho Hv) as (G1 & G2 & G3 & G4 & G5).
      repeat split; auto.
    + cbn [fst snd]. repeat split; auto.
Qed.

(** ** [ensure_environment] with the agent's own sub-passes *)

Lemma ensure_environment_run (set_iter : pyset -> list string)
    (self : CloudSentinel) (w : World) :
  let a := _ensure_required_apis self w in
  let v := _validate_iam_permissions set_iter self (fst a) in
  exists en fa va mi,
    snd a = inl (en, fa) /\ snd v = inl (va, mi) /\
    ensure_environment set_iter self w =
    (fst v,
     inl (mkReport en fa va mi [] [] (utcnow w)
            (if truthy fa || truthy mi then "issues_found" else "healthy")
            None)).
Proof.
  cbv zeta. unfold ensure_environment. rewrite ensure_environment_with_run.
  destruct (ensure_apis_loop_returns self (required_apis self) [] [] w) as [[en fa] Ha].
  fold (_ensure_required_apis self) in Ha.
  destruct (_ensure_required_apis self w) as [w1 [ar | e]]; cbn [fst snd] in *;
    [| discriminate].
  injection Ha as ->.
  destruct (validate_iam_permissions_returns set_iter self w1) as [[va mi] Hv].
  destruct (_validate_iam_permissions set_iter self w1) as [w2 [ir | e]];
    cbn [fst snd] in *; [| discriminate].
  injection Hv as ->.
  exists en, fa, va, mi. split; [reflexivity |]. split; [reflexivity |].
  cbn [_rotate_service_account_keys try_except ret fst snd truthy].
  rewrite orb_false_r. reflexivity.
Qed.

(** X17.  With its own sub-passes [ensure_environment] always returns a
    report whose status is "healthy" or "issues_found", never "error" or
    "unknown", and which has no "error" entry; the status is "healthy"
    exactly when "apis_failed" and "permissions_missing" are empty. *)
Theorem ensure_environment_reports (set_iter : pyset -> list string)
    (self : CloudSentinel) (w : World) :
  exists r,
    snd (ensure_environment set_iter self w) = inl r /\
    (overall_status r = "healthy" \/ overall_status r = "issues_found") /\
    error r = None /\
    (overall_status r = "healthy" <->
     apis_failed r = [] /\ permissions_missing r = []).
Proof.
  destruct (ensure_environment_run set_iter self w)
    as (en & fa & va & mi & _ & _ & E).
  rewrite E. eexists. split; [reflexivity |].
  cbn [overall_status error apis_failed permissions_missing].
  destruct fa, mi; cbn [truthy orb]; repeat split; auto;
    try discriminate; intros [? ?]; discriminate.
Qed.

(** X18.  A refused policy fetch does not make the report an "error": the
    status is "issues_found", "permissions_valid" is empty, and
    "permissions_missing" holds the one entry "validation_error: " followed
    by the message. *)
Theorem ensure_environment_fetch_refused (set_iter : pyset -> list string)
    (self : CloudSentinel) (w : World) (e : exn) :
  faults w (get_iam_policy_call ("projects/" ++ project_id self)) = Some e ->
  exists r,
    snd (ensure_environment set_iter self w) = inl r /\
    overall_status r = "issues_found" /\
    error r = None /\
    permissions_valid r = [] /\
    permissions_missing r = ["validation_error: " ++ str e].
Proof.
  intros Hf.
  destruct (ensure_environment_run set_iter self w)
    as (en & fa & va & mi & Ha & Hv & E).
  rewrite E. eexists. split; [reflexivity |].
  cbn [overall_status error permissions_valid permissions_missing].
  unfold _ensure_required_apis in Hv.
  destruct (ensure_apis_loop_frame self (required_apis self) [] [] w)
    as (_ & _ & _ & _ & _ & _ & Hfa & _).
  rewrite validate_iam_permissions_run in Hv. cbv zeta in Hv.
  rewrite Hfa, Hf in Hv. cbn [snd] in Hv. injection Hv as <- <-.
  rewrite orb_true_r. repeat split.
Qed.

Lemma ensure_environment_fetch_refused_witness :
  exists r,
    snd (ensure_environment insertion_order (create_cloud_sentinel "p" "global")
           fetch_denied) = inl r /\
    overall_status r = "issues_found" /\
    permissions_missing r = ["validation_error: 403 denied"].
Proof.
  destruct (ensure_environment_fetch_refused insertion_order
              (create_cloud_sentinel "p" "global") fetch_denied
              (PermissionDenied "403 denied"))
    as (r & Hr & Hs & _ & _ & Hm); [reflexivity |].
  exists r. repeat split; assumption.
Defined.

(** X19.  [ensure_environment] only reads the IAM policy and never touches
    the secrets: its requests are service-usage requests, at most three per
    required API, followed by exactly one policy fetch; no policy is
    written and no secret created or extended. *)
Theorem ensure_environment_reads_only (set_iter : pyset -> list string)
    (self : CloudSentinel) (w : World) :
  let w' := fst (ensure_environment set_iter self w) in
  iam_policy w' = iam_policy w /\ secrets w' = secrets w /\
  exists l,
    calls w' = (calls w ++ l ++
                [get_iam_policy_call ("projects/" ++ project_id self)])%list /\
    length l <= 3 * length (required_apis self) /\
    Forall (fun c => is_service_usage_call c = true) l.
Proof.
  cbv zeta.
  destruct (ensure_environment_run set_iter self w)
    as (en & fa & va & mi & _ & _ & E).
  rewrite E. cbn [fst].
  unfold _ensure_required_apis.
  destruct (ensure_apis_loop_frame self (required_apis self) [] [] w)
    as (_ & _ & _ & _ & _ & _ & _ & Hi & Hs & _ & (l & Hl & Hlen & Hall)).
  set (w1 := fst (ensure_apis_loop self (required_apis self) [] [] w)) in *.
  rewrite validate_iam_permissions_run. cbv zeta.
  assert (G : forall o : list string * list string + exn,
    fst (with_calls w1 (calls w1 ++
           [get_iam_policy_call ("projects/" ++ project_id self)]), o)
    = with_calls w1 (calls w1 ++
           [get_iam_policy_call ("projects/" ++ project_id self)])) by reflexivity.
  destruct (faults w1 _); rewrite G; cbn [iam_policy secrets calls with_calls];
    (split; [exact Hi |]); (split; [exact Hs |]);
    exists l; rewrite Hl, <- app_assoc; auto.
Qed.

Lemma missing_nil (policy : Policy) (roles accounts : list string) :
  flat_map (missing_of policy roles) accounts = [] <->
  forall p r, In p accounts -> In r roles -> _has_role p r policy = true.
Proof.
  split.
  - intros H p r Hp Hr. destruct (_has_role p r policy) eqn:E; [reflexivity |].
    assert (Hin : In (entry p r) (flat_map (missing_of policy roles) accounts)).
    { apply In_missing_of. eauto 6. }
    rewrite H in Hin. destruct Hin.
  - intros H. destruct (flat_map (missing_of policy roles) accounts) as [| e l] eqn:E;
      [reflexivity |].
    assert (Hin : In e (flat_map (missing_of policy roles) accounts))
      by (rewrite E; simpl; auto).
    apply In_missing_of in Hin as (p & r & Hp & Hr & Hf & _).
    rewrite (H p r Hp Hr) in Hf. discriminate.
Qed.

(** X20.  Against a provider that refuses no request, the report lists
    every required API as enabled and none as failed, and its status is
    "healthy" exactly when every service account found in the project's
    policy holds every critical role. *)
Theorem ensure_environment_fault_free (set_iter : pyset -> list string)
    (self : CloudSentinel) (w : World) :
  let policy := iam_policy w ("projects/" ++ project_id self) in
  iter_ok set_iter ->
  fault_free w ->
  exists r,
    snd (ensure_environment set_iter self w) = inl r /\
    apis_enabled r = required_apis self /\ apis_failed r = [] /\
    (overall_status r = "healthy" <->
     forall p role', In p (discover policy) -> In role' (critical_roles self) ->
                     _has_role p role' policy = true).
Proof.
  intros policy Hiter Hff.
  destruct (ensure_environment_run set_iter self w)
    as (en & fa & va & mi & Ha & Hv & E).
  rewrite E. eexists. split; [reflexivity |].
  cbn [apis_enabled apis_failed overall_status].
  unfold _ensure_required_apis in Ha, Hv.
  rewrite (ensure_apis_loop_fault_free self _ [] [] w Hff) in Ha.
  injection Ha as <- <-.
  split; [reflexivity |]. split; [reflexivity |].
  destruct (ensure_apis_loop_frame self (required_apis self) [] [] w)
    as (_ & _ & _ & _ & _ & _ & Hfa & Hi & _).
  rewrite validate_iam_permissions_run in Hv. cbv zeta in Hv.
  rewrite Hfa, Hi, (Hff _) in Hv. fold policy in Hv.
  assert (Hmi : mi = flat_map (missing_of policy (critical_roles self))
                       (set_iter (discover policy)))
    by (unfold snd in Hv; congruence).
  rewrite Hmi. cbn [truthy orb].
  rewrite <- (missing_nil policy (critical_roles self) (discover policy)).
  assert (P : flat_map (missing_of policy (critical_roles self))
                (set_iter (discover policy)) = [] <->
              flat_map (missing_of policy (critical_roles self))
                (discover policy) = []).
  { rewrite !missing_nil. split; intros H p r Hp Hr; apply H; auto;
      now apply (iter_ok_In set_iter _ p Hiter). }
  rewrite <- P.
  destruct (flat_map (missing_of policy (critical_roles self))
              (set_iter (discover policy)));
    cbn [truthy orb]; split; intros H; try reflexivity; discriminate.
Qed.

Lemma ensure_environment_fault_free_witness :
  exists r,
    snd (ensure_environment insertion_order (create_cloud_sentinel "p" "global")
           healthy_world) = inl r /\
    apis_failed r = [].
Proof.
  destruct (ensure_environment_fault_free insertion_order
              (create_cloud_sentinel "p" "global") healthy_world)
    as (r & Hr & _ & Hf & _).
  - intros s. apply Permutation_refl.
  - intros c. reflexivity.
  - exists r. split; assumption.
Defined.

(** X21.  A sub-pass that raises ends the run: the sub-passes after it are
    not run, so the provider is left as the failing sub-pass left it. *)
Theorem ensure_environment_stops_at_failure
    (apis_pass iam_pass keys_pass : M World (list string * list string)) (w : World) :
  (forall w1 e, apis_pass w = (w1, inr e) ->
     fst (ensure_environment_with apis_pass iam_pass keys_pass w) = w1) /\
  (forall w1 api_results w2 e,
     apis_pass w = (w1, inl api_results) -> iam_pass w1 = (w2, inr e) ->
     fst (ensure_environment_with apis_pass iam_pass keys_pass w) = w2).
Proof.
  rewrite ensure_environment_with_run. split.
  - intros w1 e ->. reflexivity.
  - intros w1 ar w2 e -> ->. reflexivity.
Qed.

(** The requests of the loop name the services of the listed APIs. *)
Lemma ensure_apis_loop_resources (self : CloudSentinel)
    (apis enabled failed : list string) (w : World) :
  exists l,
    calls (fst (ensure_apis_loop self apis enabled failed w)) = (calls w ++ l)%list /\
    Forall (fun c => exists a, In a apis /\ call_resource c = service_name self a) l.
Proof.
  revert enabled failed w.
  induction apis as [| api rest IH]; intros enabled failed w.
  - exists []. cbn [ensure_apis_loop ret fst]. rewrite app_nil_r. auto.
  - cbn [ensure_apis_loop]. unfold bind.
    destruct (ensure_api_frame self api w)
      as ([b Hb] & _ & _ & _ & _ & (l & Hl & _ & Hall) & _).
    destruct (ensure_api self api w) as [w1 [b' | e]]; cbn [fst snd] in *;
      [| discriminate].
    assert (G : forall en fa, exists l0,
      calls (fst (ensure_apis_loop self rest en fa w1)) = (calls w ++ l0)%list /\
      Forall (fun c => exists a, In a (api :: rest) /\
                                 call_resource c = service_name self a) l0).
    { intros en fa. destruct (IH en fa w1) as (l2 & Hl2 & Hall2).
      exists (l ++ l2)%list. rewrite Hl2, Hl, <- app_assoc. split; [reflexivity |].
      apply Forall_app. split.
      - eapply Forall_impl; [| exact Hall].
        intros c [_ Hc]. exists api. split; [now left | exact Hc].
      - eapply Forall_impl; [| exact Hall2].
        intros c (a & Ha & Hc). exists a. split; [now right | exact Hc]. }
    destruct b'; apply G.
Qed.

(** X22.  [ensure_environment] stays within its project: each of its
    requests names either the service of a required API,
    "projects/{project}/services/{api}", or the project itself,
    "projects/{project}". *)
Theorem ensure_environment_scope (set_iter : pyset -> list string)
    (self : CloudSentinel) (w : World) :
  exists l,
    calls (fst (ensure_environment set_iter self w)) = (calls w ++ l)%list /\
    Forall (fun c =>
              String.prefix ("projects/" ++ project_id self) (call_resource c) = true /\
              (call_resource c = "projects/" ++ project_id self \/
               exists a, In a (required_apis self) /\
                         call_resource c = service_name self a)) l.
Proof.
  destruct (ensure_environment_run set_iter self w)
    as (en & fa & va & mi & _ & _ & E).
  rewrite E. cbn [fst]. unfold _ensure_required_apis.
  destruct (ensure_apis_loop_resources self (required_apis self) [] [] w)
    as (l & Hl & Hall).
  set (w1 := fst (ensure_apis_loop self (required_apis self) [] [] w)) in *.
  exists (l ++ [get_iam_policy_call ("projects/" ++ project_id self)])%list.
  split.
  - rewrite validate_iam_permissions_run. cbv zeta.
    destruct (faults w1 _); cbn [fst calls with_calls];
      rewrite Hl, <- app_assoc; reflexivity.
  - apply Forall_app. split.
    + eapply Forall_impl; [| exact Hall].
      intros c (a & Ha & Hc). split; [| right; eauto].
      rewrite Hc. unfold service_name.
      change ("projects/" ++ project_id self ++ "/services/" ++ a)
        with (("projects/" ++ project_id self) ++ "/services/" ++ a).
      apply prefix_app.
    + constructor; [| constructor]. cbn [call_resource]. split; [| now left].
      replace ("projects/" ++ project_id self)
        with (("projects/" ++ project_id self) ++ "") at 2.
      * apply prefix_app.
      * clear. induction ("projects/" ++ project_id self) as [| c s IH];
          [reflexivity |]. cbn [append]. now rewrite IH.
Qed.


(** *** A second run *)




